(** * VectorFitting: a shallow embedding of [src/core/VectorFitting.cpp]

    The file holds two versions of the translation unit, one after the
    other; the embedding follows the second, complete one (from line 188
    on): the constructors, [init], [fit], [getFittedSamples], [getRMSE],
    [getMaxDeviation] and [getCIndex].  Line numbers are those of the file.

    Modelling conventions.
    - [Real] is idealised as the rationals in lowest terms, [Qc]; C++ [==]
      and [<] on reals are the decidable equality and order of [Qc].
      Rounding, infinities and NaN are outside the model, and a division by
      zero yields [0] as in [Qc].
    - [Complex] is a pair of reals with the usual field operations.
    - Eigen vectors are lists, Eigen matrices are lists of rows.  Eigen's
      coefficient accessors check their index ([eigen_assert]); an index out
      of range ends the run with [AssertionFailed], as a failed [assert]
      does.  An out-of-range [operator[]] on a [std::vector] has no defined
      behaviour in C++; the model ends the run with [OutOfBounds].
    - [throw std::runtime_error(msg)] ends the run with [RuntimeError msg].
    - What the translation unit takes from headers and libraries that are not
      part of it (tolerance comparisons, [linspace], [std::sqrt], Eigen's
      factorisations and eigenvalue solver, the contents of uninitialised
      storage) is collected in the record [Externals]; every theorem holds
      for all of them unless it states an assumption. *)

From Stdlib Require Import QArith Qcanon Qcabs ZArith Lia String.
From stdpp Require Import base tactics option list numbers sorting.

Local Open Scope nat_scope.

(** ** Reals and complex numbers *)

Definition Real := Qc.

Definition Rltb (a b : Qc) : bool := bool_decide (a < b)%Qc.

Definition Reqb (a b : Qc) : bool := bool_decide (a = b).

Definition ofNat (n : nat) : Qc := Qc_of_Z (Z.of_nat n).

Record Complex := Cplx { real : Qc; imag : Qc }.

Definition C0 : Complex := Cplx 0 0.
Definition C1 : Complex := Cplx 1 0.
Definition Ci : Complex := Cplx 0 1.

Definition ofReal (x : Qc) : Complex := Cplx x 0.

Definition Cadd (a b : Complex) : Complex :=
  Cplx (real a + real b) (imag a + imag b).

Definition Csub (a b : Complex) : Complex :=
  Cplx (real a - real b) (imag a - imag b).

Definition Cmul (a b : Complex) : Complex :=
  Cplx (real a * real b - imag a * imag b) (real a * imag b + imag a * real b).

Definition Cdiv (a b : Complex) : Complex :=
  let d := (real b * real b + imag b * imag b)%Qc in
  Cplx ((real a * real b + imag a * imag b) / d)
       ((imag a * real b - real a * imag b) / d).

(** [w * z] for a real [w] and a complex [z]. *)
Definition Cscale (w : Qc) (z : Complex) : Complex :=
  Cplx (w * real z) (w * imag z).

(** [z - x] and [z / x] for a complex [z] and a real [x]. *)
Definition CsubR (z : Complex) (x : Qc) : Complex := Cplx (real z - x) (imag z).

Definition CdivR (z : Complex) (x : Qc) : Complex := Cplx (real z / x) (imag z / x).

(** [std::conj]. *)
Definition conj (a : Complex) : Complex := Cplx (real a) (- imag a).

(** [operator==] on [std::complex]. *)
Definition Ceqb (a b : Complex) : bool :=
  Reqb (real a) (real b) && Reqb (imag a) (imag b).

(** ** Outcomes of a run *)

Inductive error : Type :=
| RuntimeError (msg : string)
| AssertionFailed
| OutOfBounds.

Inductive result (A : Type) : Type :=
| Ok (a : A)
| Err (e : error).

Arguments Ok {A} a.
Arguments Err {A} e.

#[global] Instance result_ret : MRet result := fun A a => Ok a.

#[global] Instance result_bind : MBind result := fun A B f m =>
  match m with
  | Ok a => f a
  | Err e => Err e
  end.

(** [for (size_t i = 0; i < n; ++i) body], the body leaving [i] alone. *)
Fixpoint for_range {St : Type} (i n : nat) (body : nat -> St -> result St)
    (s : St) : result St :=
  match n with
  | 0 => Ok s
  | S n' => s' ← body i s; for_range (S i) n' body s'
  end.

Definition for_loop {St : Type} (n : nat) (body : nat -> St -> result St)
    (s : St) : result St :=
  for_range 0 n body s.

(** [for (size_t i = i0; i < n; i += step) body], where the body may itself
    advance [i]: it returns the value [i] has when it ends.  Every round
    advances [i], so [n] rounds of fuel are never used up when the loop
    starts below [n]; at [fuel = 0] the loop has ended. *)
Fixpoint for_idx {St : Type} (fuel step i n : nat)
    (body : nat -> St -> result (nat * St)) (s : St) : result St :=
  match fuel with
  | 0 => Ok s
  | S fuel' =>
    if decide (i < n) then
      r ← body i s; for_idx fuel' step (r.1 + step) n body r.2
    else Ok s
  end.

(** ** Vectors and matrices *)

Definition Mat (A : Type) := list (list A).

(** Eigen: [v(i)] read and written. *)
Definition eget {A : Type} (v : list A) (i : nat) : result A :=
  match v !! i with
  | Some x => Ok x
  | None => Err AssertionFailed
  end.

Definition eset {A : Type} (v : list A) (i : nat) (x : A) : result (list A) :=
  if decide (i < length v) then Ok (<[i := x]> v) else Err AssertionFailed.

(** Eigen: [M(i,j)] read and written. *)
Definition mget {A : Type} (M : Mat A) (i j : nat) : result A :=
  row ← eget M i; eget row j.

Definition mset {A : Type} (M : Mat A) (i j : nat) (x : A) : result (Mat A) :=
  row ← eget M i; row' ← eset row j x; eset M i row'.

(** [std::vector]: [v[i]] read and written. *)
Definition vget {A : Type} (v : list A) (i : nat) : result A :=
  match v !! i with
  | Some x => Ok x
  | None => Err OutOfBounds
  end.

Definition vset {A : Type} (v : list A) (i : nat) (x : A) : result (list A) :=
  if decide (i < length v) then Ok (<[i := x]> v) else Err OutOfBounds.

(** [Matrix::Zero(r,c)], [Matrix::Ones(r,c)] and the like. *)
Definition mconst {A : Type} (r c : nat) (x : A) : Mat A :=
  replicate r (replicate c x).

(** The matrix with [r] rows and [c] columns whose coefficient is [f i j]. *)
Definition mtab {A : Type} (r c : nat) (f : nat -> nat -> A) : Mat A :=
  map (fun i => map (fun j => f i j) (seq 0 c)) (seq 0 r).

(** Coefficient of a real matrix inside Eigen's own products, blocks and
    reductions, whose operands fit by construction in [fit]. *)
Definition mat_at (M : Mat Qc) (i j : nat) : Qc :=
  default 0%Qc (row ← M !! i; row !! j).

Definition mat_atC (M : Mat Complex) (i j : nat) : Complex :=
  default C0 (row ← M !! i; row !! j).

Definition Qsum (l : list Qc) : Qc := foldl Qcplus 0%Qc l.

Definition Csum (l : list Complex) : Complex := foldl Cadd C0 l.

(** [A * B] for [A] of size [r x k] and [B] of size [k x c]. *)
Definition mmul (r k c : nat) (A B : Mat Qc) : Mat Qc :=
  mtab r c (fun i j => Qsum (map (fun l => (mat_at A i l * mat_at B l j)%Qc) (seq 0 k))).

(** [A.transpose()] for [A] of size [r x c]. *)
Definition mtranspose (r c : nat) (A : Mat Qc) : Mat Qc :=
  mtab c r (fun i j => mat_at A j i).

(** [MatrixXd::Identity(r,c)]. *)
Definition midentity (r c : nat) : Mat Qc :=
  mtab r c (fun i j => if decide (i = j) then 1%Qc else 0%Qc).

(** [M.block(i0,j0,r,c)]. *)
Definition mblock (M : Mat Qc) (i0 j0 r c : nat) : Mat Qc :=
  mtab r c (fun i j => mat_at M (i0 + i) (j0 + j)).

(** [M.block(i0,j0,r,c) = B] on a matrix [M] of size [R x C]. *)
Definition mset_block (R C : nat) (M : Mat Qc) (i0 j0 r c : nat) (B : Mat Qc) : Mat Qc :=
  mtab R C (fun i j =>
    if decide (i0 <= i < i0 + r /\ j0 <= j < j0 + c)
    then mat_at B (i - i0) (j - j0) else mat_at M i j).


(** [M.col(j)]. *)
Definition mcol {A : Type} (M : Mat A) (j : nat) : result (list A) :=
  mapM (M := result) (fun row => eget row j) M.

(** ** Data model *)

(** [typedef std::pair<Complex, std::vector<Complex>> Sample]: a frequency
    and the responses sampled there. *)
Definition Sample : Type := Complex * list Complex.

Inductive AsymptoticTrend : Type := zero | constant | linear.

(** Modelled from the spec: the class [Options] is declared in
    [VectorFitting.h], which is not among the sources; the spec lists its
    fields, and [fit] reads them through these getters. *)
Record Options := mkOptions {
  isSkipPoleIdentification : bool;
  isSkipResidueIdentification : bool;
  isRelax : bool;
  isStable : bool;
  getAsymptoticTrend : AsymptoticTrend
}.

(** The members of a fitting instance that the translation unit reads and
    writes. *)
Record VectorFitting := mkVF {
  options_ : Options;
  samples_ : list Sample;
  poles_ : list Complex;
  weights_ : Mat Qc;
  A_ : Mat Complex;
  B_ : list Z;
  C_ : Mat Complex;
  D_ : list Complex;
  E_ : list Complex
}.

(** What [VectorFitting.cpp] uses and does not define. *)
Record Externals := mkExternals {
  (** tolerance comparisons of reals (the project's math utilities) *)
  equal : Qc -> Qc -> bool;
  lower : Qc -> Qc -> bool;
  greater : Qc -> Qc -> bool;
  (** the bounds of the relaxation sanity check *)
  toleranceLow_ : Qc;
  toleranceHigh_ : Qc;
  (** [linspace(range, n)] of [SpaceGenerator.h] *)
  linspace : Qc * Qc -> nat -> list Qc;
  (** [std::sqrt] *)
  rsqrt : Qc -> Qc;
  (** coefficient [(i,j)] of [HouseholderQR<MatrixXd>(A).householderQ()] *)
  householderQ : Mat Qc -> nat -> nat -> Qc;
  (** coefficient [i] of [A.householderQr().solve(b)], real and complex *)
  qrSolve : Mat Qc -> list Qc -> nat -> Qc;
  qrSolveC : Mat Complex -> list Complex -> nat -> Complex;
  (** eigenvalue [i] of [EigenSolver<MatrixXd>(M, false).eigenvalues()] *)
  eigenvalue : Mat Qc -> nat -> Complex;
  (** what freshly allocated, uninitialised coefficients hold *)
  uninitReal : nat -> Qc;
  uninitComplex : nat -> Complex;
  uninitInt : nat -> Z
}.

(** [std::min_element] and [std::max_element]: the first smallest and the
    first largest element; [None] stands for the iterator [end()]. *)
Definition min_element {A : Type} (comp : A -> A -> bool) (l : list A) : option A :=
  match l with
  | [] => None
  | x :: l' => Some (foldl (fun smallest y => if comp y smallest then y else smallest) x l')
  end.

Definition max_element {A : Type} (comp : A -> A -> bool) (l : list A) : option A :=
  match l with
  | [] => None
  | x :: l' => Some (foldl (fun largest y => if comp largest y then y else largest) x l')
  end.

(** [std::sort(first, last, comp)], as an insertion sort.  Elements that
    [comp] does not separate are numerically equal for the one comparator
    used here, so every sorting algorithm returns the same numbers. *)
Fixpoint sort_insert {A : Type} (comp : A -> A -> bool) (x : A) (l : list A) : list A :=
  match l with
  | [] => [x]
  | y :: l' => if comp x y then x :: y :: l' else y :: sort_insert comp x l'
  end.

Definition std_sort {A : Type} (comp : A -> A -> bool) (l : list A) : list A :=
  foldr (sort_insert comp) [] l.

(** Dereferencing an iterator; [end()] refers to no element. *)
Definition deref {A : Type} (it : option A) : result A :=
  match it with
  | Some x => Ok x
  | None => Err OutOfBounds
  end.

(** Custom ordering for the samples, by the imaginary parts of the
    frequencies (lines 217-224). *)
Definition sampleOrdering (a b : Sample) : bool := Rltb (imag a.1) (imag b.1).

(** Complex ordering (lines 226-238). *)
Definition complexOrdering (a b : Complex) : bool :=
  if Rltb (real a) (real b) then true
  else if Reqb (real a) (real b) then Rltb (imag a) (imag b)
  else false.

Definition getSamplesSize (vf : VectorFitting) : nat := length (samples_ vf).

Definition responseSize (samples : list Sample) : result nat :=
  match samples with
  | [] => Err AssertionFailed
  | s :: _ => Ok (length s.2)
  end.

Definition getResponseSize (vf : VectorFitting) : result nat :=
  responseSize (samples_ vf).

Definition getOrder (vf : VectorFitting) : nat := length (poles_ vf).

Definition setOptions (vf : VectorFitting) (options : Options) : VectorFitting :=
  mkVF options (samples_ vf) (poles_ vf) (weights_ vf)
       (A_ vf) (B_ vf) (C_ vf) (D_ vf) (E_ vf).

Definition getPoles (vf : VectorFitting) : list Complex := poles_ vf.

Section Model.

Variable ext : Externals.

(** Quick check to see if a Complex number is real (lines 240-243). *)
Definition isReal (n : Complex) : bool := equal ext (imag n) 0%Qc.

(** [std::abs] of a complex number. *)
Definition Cabs (z : Complex) : Qc :=
  rsqrt ext (real z * real z + imag z * imag z)%Qc.

(** [v.norm()] of a real and of a complex vector. *)
Definition norm (v : list Qc) : Qc :=
  rsqrt ext (Qsum (map (fun x => (x * x)%Qc) v)).

Definition normC (v : list Complex) : Qc :=
  rsqrt ext (Qsum (map (fun z => (real z * real z + imag z * imag z)%Qc) v)).

(** [RowVectorXi VectorFitting::getCIndex(const VectorXcd& poles)]
    (lines 896-914). *)
Definition getCIndex (poles : list Complex) : result (list Z) :=
  let N := length poles in
  for_loop N (fun m cindex =>
    p ← eget poles m;
    if negb (equal ext (imag p) 0%Qc) then
      if decide (m = 0) then eset cindex m 1%Z
      else
        c ← eget cindex (m - 1);
        if decide (c = 0%Z \/ c = 2%Z) then
          cindex ← eset cindex m 1%Z;
          eset cindex (m + 1) 2%Z
        else eset cindex m 2%Z
    else Ok cindex) (replicate N 0%Z).

(** Lines 251-261, the sanity check that opens [init]: the complex poles
    should come in pairs. *)
Definition checkPoles (poles : list Complex) : result unit :=
  for_idx (length poles) 1 0 (length poles) (fun i (u : unit) =>
    currentPole ← vget poles i;
    if negb (isReal currentPole) then
      next ← vget poles (i + 1);
      if Ceqb (conj currentPole) next then Ok (i + 1, u)
      else Err AssertionFailed
    else Ok (i, u)) tt.

(** Lines 245-285, [void VectorFitting::init(samples, poles, options,
    weights)], run on a freshly constructed object, whose Eigen members are
    empty. *)
Definition init (samples : list Sample) (poles : list Complex)
    (options : Options) (weights : list (list Real)) : result VectorFitting :=
  _ ← checkPoles poles;
  poles' ← for_loop (length poles) (fun i v => p ← vget poles i; eset v i p)
            (replicate (length poles) C0);
  if negb (length weights =? 0) && negb (length weights =? length samples) then
    Err (RuntimeError "Weights and samples must have same size.")
  else
    let Ns := length samples in
    weights' ←
      (if length weights =? 0 then
         Nc ← responseSize samples;
         Ok (mconst Ns Nc 1%Qc)
       else
         Nc ← responseSize samples;
         for_loop Ns (fun i W =>
           wi ← vget weights i;
           Nc ← responseSize samples;
           if negb (length wi =? Nc) then
             Err (RuntimeError "All weights must have the same size as the samples")
           else
             for_loop Nc (fun j W =>
               wi ← vget weights i;
               wij ← vget wi j;
               mset W i j wij) W) (mconst Ns Nc 0%Qc));
    Ok (mkVF options samples poles' weights' [] [] [] [] []).

(** [VectorFitting::VectorFitting(samples, poles, options, weights)]
    (lines 287-295). *)
Definition VectorFitting_poles (samples : list Sample) (poles : list Complex)
    (options : Options) (weights : list (list Real)) : result VectorFitting :=
  if length samples =? 0 then Err (RuntimeError "Samples size cannot be zero")
  else init samples poles options weights.

(** [VectorFitting::VectorFitting(samples, order, options, weights)]
    (lines 297-336). *)
Definition VectorFitting_order (samples : list Sample) (order : nat)
    (options : Options) (weights : list (list Real)) : result VectorFitting :=
  if length samples =? 0 then Err (RuntimeError "Samples size cannot be zero")
  else if order mod 2 =? 0 then
    Err (RuntimeError "Default starting poles are complex, order must be even")
  else
    minSample ← deref (min_element sampleOrdering samples);
    maxSample ← deref (max_element sampleOrdering samples);
    let range := (imag minSample.1, imag maxSample.1) in
    let imagParts := linspace ext range (order / 2) in
    poles ← for_idx order 2 0 order (fun i poles =>
      imag ← vget imagParts (i / 2);
      let real := (- imag / Qc_of_Z 100)%Qc in
      poles ← vset poles i (Cplx real imag);
      p ← vget poles i;
      poles ← vset poles (i + 1) (conj p);
      Ok (i, poles)) (replicate order C0);
    init samples poles options weights.


(** *** [fit]: pole identification *)

(** Lines 359-386, "Builds system - matrix": the diagonal matrix [LAMBD] of
    the poles and the basis [Dk]. *)
Definition poleBasis (vf : VectorFitting) (Ns N : nat) (cindex : list Z)
    : result (Mat Complex * Mat Complex) :=
  LAMBD ← for_loop N (fun i L => p ← eget (poles_ vf) i; mset L i i p)
            (mconst N N C0);
  let LAMBDprime := mtab N N (fun i j => conj (mat_atC LAMBD j i)) in
  Dk ← for_loop N (fun m Dk =>
    c ← eget cindex m;
    if decide (c = 0%Z) then
      for_loop Ns (fun i Dk =>
        s ← vget (samples_ vf) i;
        l ← mget LAMBD m m;
        mset Dk i m (Cdiv C1 (Csub s.1 l))) Dk
    else if decide (c = 1%Z) then
      for_loop Ns (fun i Dk =>
        s ← vget (samples_ vf) i;
        l ← mget LAMBD m m;
        lp ← mget LAMBDprime m m;
        Dk ← mset Dk i m (Cadd (Cdiv C1 (Csub s.1 l)) (Cdiv C1 (Csub s.1 lp)));
        mset Dk i (m + 1) (Csub (Cdiv Ci (Csub s.1 l)) (Cdiv Ci (Csub s.1 lp)))) Dk
    else Ok Dk) (mconst Ns (N + 2) C0);
  Dk ← for_loop Ns (fun i Dk =>
    Dk ← mset Dk i N C1;
    match getAsymptoticTrend (options_ vf) with
    | linear => s ← vget (samples_ vf) i; mset Dk i (N + 1) s.1
    | _ => Ok Dk
    end) Dk;
  Ok (LAMBD, Dk).

(** Scaling for last row of LS-problem (pole identification), lines
    387-396. *)
Definition lsScale (vf : VectorFitting) (Ns Nc : nat) : result Qc :=
  scale ← for_loop Nc (fun m scale =>
    for_loop Ns (fun i scale =>
      weight ← mget (weights_ vf) i m;
      s ← vget (samples_ vf) i;
      sample ← vget s.2 m;
      let a := Cabs (Cscale weight (conj sample)) in
      Ok (scale + a * a)%Qc) scale) 0%Qc;
  Ok (rsqrt ext scale / ofNat Ns)%Qc.

Definition trendOffs (t : AsymptoticTrend) : nat :=
  match t with
  | zero => 0
  | constant => 1
  | linear => 2
  end.

(** Lines 400-482, the branch [if (options_.isRelax())]: the relaxed
    least-squares problem for the coefficients [x] of sigma. *)
Definition relaxedSolve (vf : VectorFitting) (Ns N Nc : nat) (Dk : Mat Complex)
    (scale : Qc) : result (list Qc) :=
  let offs := trendOffs (getAsymptoticTrend (options_ vf)) in
  let rowsAA := Nc * (N + 1) in
  '(AA, bb) ← for_loop Nc (fun n '(AA, bb) =>
    let rowsA := 2 * Ns + 1 in
    let colsA := (N + offs) + N + 1 in
    weig ← for_loop Ns (fun i weig =>
      w ← mget (weights_ vf) i n; eset weig i w) (map (uninitReal ext) (seq 0 Ns));
    (* Left block. *)
    A ← for_loop (N + offs) (fun m A =>
      for_loop Ns (fun i A =>
        w ← eget weig i;
        d ← mget Dk i m;
        let entry := Cscale w d in
        A ← mset A i m (real entry);
        mset A (i + Ns) m (imag entry)) A) (mconst rowsA colsA 0%Qc);
    (* Right block. *)
    let inda := N + offs in
    A ← for_loop (N + 1) (fun m A =>
      for_loop Ns (fun i A =>
        w ← eget weig i;
        d ← mget Dk i m;
        s ← vget (samples_ vf) i;
        f ← vget s.2 n;
        let entry := Cmul (Cscale (- w)%Qc d) f in
        A ← mset A i (inda + m) (real entry);
        mset A (i + Ns) (inda + m) (imag entry)) A) A;
    (* Integral criterion for sigma. *)
    let offset := N + offs in
    A ← (if decide (n = Nc - 1) then
           for_loop (N + 1) (fun mm A =>
             col ← mcol Dk mm;
             mset A (2 * Ns) (offset + mm) (real (Cscale scale (Csum col)))) A
         else Ok A);
    (* Performs QR decomposition. *)
    let Qfull := mtab rowsA rowsA (householderQ ext A) in
    let Q := mmul rowsA rowsA colsA Qfull (midentity rowsA colsA) in
    let R := mmul colsA rowsA colsA (mtranspose rowsA colsA Q) A in
    let ind := N + offs in
    let R22 := mblock R ind ind (N + 1) (N + 1) in
    let AA := mset_block rowsAA (N + 1) AA (n * (N + 1)) 0 (N + 1) (N + 1) R22 in
    bb ← (if decide (n = Nc - 1) then
            for_loop (N + 1) (fun i bb =>
              q ← mget Q (2 * Ns) (N + offs + i);
              eset bb (i + n * (N + 1)) (q * ofNat Ns * scale)%Qc) bb
          else Ok bb);
    Ok (AA, bb)) (mconst rowsAA (N + 1) 0%Qc, replicate rowsAA 0%Qc);
  (* Computes scaling factor. *)
  '(AA, Escale) ← for_loop (N + 1) (fun col '(AA, Escale) =>
    c ← mcol AA col;
    Escale ← eset Escale col (1 / norm c)%Qc;
    AA ← for_loop rowsAA (fun i AA =>
      e ← eget Escale col;
      a ← mget AA i col;
      mset AA i col (e * a)%Qc) AA;
    Ok (AA, Escale)) (AA, replicate (N + 1) 0%Qc);
  let x := map (qrSolve ext AA bb) (seq 0 (N + 1)) in
  for_loop (N + 1) (fun i x =>
    xi ← eget x i;
    e ← eget Escale i;
    eset x i (xi * e)%Qc) x.

(** Lines 484-486, the test that guards the throw after the relaxed solve;
    [||] reads its right operand only when the left one is false. *)
Definition relaxCheckFails (vf : VectorFitting) (N : nat) (x : list Qc) : result bool :=
  if negb (isRelax (options_ vf)) then Ok true
  else
    x0 ← eget x 0;
    if lower ext (Qcabs x0) (toleranceLow_ ext) then Ok true
    else
      xN ← eget x N;
      Ok (greater ext (Qcabs xN) (toleranceHigh_ ext)).

(** Lines 491-546, from [VectorXcd C = VectorXcd::Zero(N)] to the matrix [ZER]
    whose eigenvalues are the zeros of sigma. *)
Definition sigmaZeros (N : nat) (cindex : list Z) (LAMBD : Mat Complex)
    (x : list Qc) : result (Mat Qc) :=
  C ← for_loop (length x - 1) (fun i C =>
    xi ← eget x i; eset C i (ofReal xi)) (replicate N C0);
  C ← for_loop N (fun m C =>
    c ← eget cindex m;
    if decide (c = 1%Z) then
      c0 ← eget C m;
      c1 ← eget C (m + 1);
      let r1 := real c0 in
      let r2 := real c1 in
      C ← eset C m (Cplx r1 r2);
      eset C (m + 1) (Cplx r1 (- r2))
    else Ok C) C;
  D ← eget x (length x - 1);
  (* Calculates the zeros for sigma. *)
  '(LAMBD, B, C, _) ← for_loop N (fun n '(LAMBD, B, C, m) =>
    if decide (m < N) then
      l ← mget LAMBD m m;
      if greater ext (Cabs l) (Qcabs (real l)) then
        l ← mget LAMBD m m;
        LAMBD ← mset LAMBD (m + 1) m (ofReal (- imag l));
        l ← mget LAMBD m m;
        LAMBD ← mset LAMBD m (m + 1) (ofReal (imag l));
        l ← mget LAMBD m m;
        LAMBD ← mset LAMBD m m (ofReal (real l));
        l ← mget LAMBD m m;
        LAMBD ← mset LAMBD (m + 1) (m + 1) l;
        B ← eset B m 2%Z;
        B ← eset B (m + 1) 0%Z;
        aux ← eget C m;
        C ← eset C m (ofReal (real aux));
        C ← eset C (m + 1) (ofReal (imag aux));
        Ok (LAMBD, B, C, m + 1 + 1)
      else Ok (LAMBD, B, C, m + 1)
    else Ok (LAMBD, B, C, m + 1)) (LAMBD, replicate N 1%Z, C, 0);
  (* Checks LAMBD and C are purely real. *)
  _ ← for_loop N (fun i (u : unit) =>
    for_loop N (fun j (u : unit) =>
      l ← mget LAMBD i j;
      if negb (equal ext (imag l) 0%Qc)
      then Err (RuntimeError "LAMBD is not purely real")
      else Ok u) u) tt;
  _ ← for_loop N (fun i (u : unit) =>
    c ← eget C i;
    if negb (equal ext (imag c) 0%Qc)
    then Err (RuntimeError "LAMBD is not purely real")
    else Ok u) tt;
  for_loop N (fun i ZER =>
    for_loop N (fun j ZER =>
      l ← mget LAMBD i j;
      b ← eget B i;
      c ← eget C j;
      mset ZER i j (real l - Qc_of_Z b * real c / D)%Qc) ZER) (mconst N N 0%Qc).

(** Line 549, [EigenSolver<MatrixXd>(M, false).eigenvalues()]: as many
    eigenvalues as [M] has rows. *)
Definition eigenvalues (M : Mat Qc) : list Complex :=
  map (eigenvalue ext M) (seq 0 (length M)).

(** Lines 550-557, the block [if (options_.isStable())]: unstable eigenvalues
    are flipped into the left half-plane. *)
Definition stabilise (N : nat) (roetter : list Complex) : result (list Complex) :=
  for_loop N (fun i roetter =>
    z ← eget roetter i;
    let realPart := real z in
    if greater ext realPart 0%Qc then
      z ← eget roetter i;
      eset roetter i (CsubR z (2 * realPart)%Qc)
    else Ok roetter) roetter.

(** Lines 598-606, "Alternative way of sorting": the keys [(|imag|, |real|)]
    of the eigenvalues, sorted by [complexOrdering]. *)
Definition sortKeys (N : nat) (roetter : list Complex) : result (list Complex) :=
  aux ← for_loop N (fun m aux =>
    z ← eget roetter m;
    z' ← eget roetter m;
    vset aux m (Cplx (Qcabs (imag z)) (Qcabs (real z')))) (replicate N C0);
  Ok (std_sort complexOrdering aux).

(** Lines 607-615, the loop that rebuilds [roetter] from the sorted keys. *)
Definition rebuild (N : nat) (aux roetter : list Complex) : result (list Complex) :=
  for_idx N 1 0 N (fun m roetter =>
    a ← vget aux m;
    if equal ext (real a) 0%Qc then
      a ← vget aux m;
      roetter ← eset roetter m (Cplx (- imag a) (real a));
      Ok (m, roetter)
    else
      a ← vget aux m;
      roetter ← eset roetter m (Cplx (- imag a) (real a));
      let m := m + 1 in
      a ← vget aux m;
      roetter ← eset roetter m (Cplx (- imag a) (- real a));
      Ok (m, roetter)) roetter.

(** Lines 548-618, from "Stores roetter" to the end of the pole
    identification. *)
Definition relocate (stable : bool) (N : nat) (ZER : Mat Qc) : result (list Complex) :=
  let roetter := eigenvalues ZER in
  roetter ← (if stable then stabilise N roetter else Ok roetter);
  aux ← sortKeys N roetter;
  rebuild N aux roetter.

(** Lines 354-620, the block [if (!options_.isSkipPoleIdentification())]; its
    value is [roetter], which the block also stores in [SERA]. *)
Definition poleIdentification (vf : VectorFitting) (Ns N Nc : nat)
    : result (list Complex) :=
  cindex ← getCIndex (poles_ vf);
  '(LAMBD, Dk) ← poleBasis vf Ns N cindex;
  scale ← lsScale vf Ns Nc;
  x ← (if isRelax (options_ vf) then relaxedSolve vf Ns N Nc Dk scale
       else Ok (map (uninitReal ext) (seq 0 (N + 1))));
  fails ← relaxCheckFails vf N x;
  if (fails : bool)
  then Err (RuntimeError "Option to do not relax is not implemented")
  else
    ZER ← sigmaZeros N cindex LAMBD x;
    relocate (isStable (options_ vf)) N ZER.

(** *** [fit]: residue identification *)

(** Lines 623-733, the block [if (!options_.isSkipResidueIdentification())];
    its value is what it leaves in [SERA], [SERB], [SERC], [SERD] and [SERE]. *)
Definition residueIdentification (vf : VectorFitting) (Ns N Nc : nat)
    (roetter SERD SERE : list Complex)
    : result (list Complex * list Z * Mat Complex * list Complex * list Complex) :=
  let trend := getAsymptoticTrend (options_ vf) in
  let LAMBD := roetter in
  cindex ← getCIndex LAMBD;
  Dk ← for_loop N (fun m Dk =>
    for_loop Ns (fun i Dk =>
      c ← eget cindex m;
      if decide (c = 0%Z) then
        s ← vget (samples_ vf) i;
        l ← eget LAMBD m;
        mset Dk i m (Cdiv C1 (Csub s.1 l))
      else
        c ← eget cindex m;
        if decide (c = 1%Z) then
          s ← vget (samples_ vf) i;
          l ← eget LAMBD m;
          Dk ← mset Dk i m
                 (Cadd (Cdiv C1 (Csub s.1 l)) (Cdiv C1 (Csub s.1 (conj l))));
          mset Dk i (m + 1)
               (Csub (Cdiv Ci (Csub s.1 l)) (Cdiv Ci (Csub s.1 (conj l))))
        else Ok Dk) Dk) (mconst Ns N C0);
  '(C, SERD, SERE) ← for_loop Nc (fun n '(C, SERD, SERE) =>
    let cols := N + trendOffs trend in
    '(A, BB) ← for_loop Ns (fun i st =>
      for_loop N (fun j '(A, BB) =>
        d ← mget Dk i j;
        w ← mget (weights_ vf) i n;
        A ← mset A i j (ofReal (real d * w));
        A ← mset A (i + Ns) j (ofReal (imag d * w));
        s ← vget (samples_ vf) i;
        f ← vget s.2 n;
        BB ← eset BB i (ofReal (real f * w));
        BB ← eset BB (i + Ns) (ofReal (imag f * w));
        Ok (A, BB)) st) (mconst (2 * Ns) cols C0, replicate (2 * Ns) C0);
    A ← match trend with
        | zero => Ok A
        | constant =>
          for_loop Ns (fun i A =>
            w ← mget (weights_ vf) i n;
            A ← mset A i N (ofReal (1 * w));
            mset A (i + Ns) N (ofReal (0 * w))) A
        | linear =>
          for_loop Ns (fun i A =>
            w ← mget (weights_ vf) i n;
            A ← mset A i N (ofReal (1 * w));
            A ← mset A (i + Ns) N (ofReal (0 * w));
            s ← vget (samples_ vf) i;
            A ← mset A i (N + 1) (ofReal (real s.1 * w));
            mset A (i + Ns) (N + 1) (ofReal (imag s.1 * w))) A
        end;
    (* Computes scaling factor. *)
    '(A, Escale) ← for_loop cols (fun col '(A, Escale) =>
      c ← mcol A col;
      Escale ← eset Escale col (normC c);
      A ← for_loop (2 * Ns) (fun i A =>
        a ← mget A i col;
        e ← eget Escale col;
        mset A i col (CdivR a e)) A;
      Ok (A, Escale)) (A, map (uninitReal ext) (seq 0 cols));
    let X := map (qrSolveC ext A BB) (seq 0 cols) in
    X ← for_loop cols (fun i X =>
      xi ← eget X i;
      e ← eget Escale i;
      eset X i (CdivR xi e)) X;
    (* Stores results for response. *)
    C ← for_loop N (fun i C => xi ← eget X i; mset C n i xi) C;
    match trend with
    | zero => Ok (C, SERD, SERE)
    | constant =>
      xN ← eget X N;
      SERD ← eset SERD n xN;
      Ok (C, SERD, SERE)
    | linear =>
      xN ← eget X N;
      SERD ← eset SERD n xN;
      xN1 ← eget X (N + 1);
      SERE ← eset SERE n xN1;
      Ok (C, SERD, SERE)
    end) (mconst Nc N C0, SERD, SERE);
  C ← for_loop N (fun m C =>
    c ← eget cindex m;
    if decide (c = 1%Z) then
      for_loop Nc (fun n C =>
        c0 ← mget C n m;
        c1 ← mget C n (m + 1);
        let r1 := real c0 in
        let r2 := real c1 in
        C ← mset C n m (Cplx r1 r2);
        mset C n (m + 1) (Cplx r1 (- r2))) C
    else Ok C) C;
  Ok (LAMBD, replicate N 1%Z, C, SERD, SERE).

(** [void VectorFitting::fit()] (lines 338-782). *)
Definition fit (vf : VectorFitting) : result VectorFitting :=
  let Ns := getSamplesSize vf in
  let N := getOrder vf in
  Nc ← getResponseSize vf;
  let SERD := map (uninitComplex ext) (seq 0 Nc) in
  let SERE := map (uninitComplex ext) (seq 0 Nc) in
  let SERB := map (uninitInt ext) (seq 0 N) in
  let SERC := mtab Nc N (fun _ j => uninitComplex ext j) in
  SERA ← for_loop N (fun i SERA => p ← eget (poles_ vf) i; eset SERA i p)
           (map (uninitComplex ext) (seq 0 N));
  let roetter : list Complex := [] in
  (* --- Pole identification --- *)
  '(SERA, roetter) ←
    (if negb (isSkipPoleIdentification (options_ vf)) then
       roetter ← poleIdentification vf Ns N Nc;
       Ok (roetter, roetter)
     else Ok (SERA, roetter));
  (* --- Residue identification --- *)
  '(SERA, SERB, SERC, SERD, SERE) ←
    (if negb (isSkipResidueIdentification (options_ vf)) then
       residueIdentification vf Ns N Nc roetter SERD SERE
     else Ok (SERA, SERB, SERC, SERD, SERE));
  A' ← for_loop N (fun i A' => a ← eget SERA i; mset A' i i a) (mconst N N C0);
  let poles' := SERA in
  if negb (isSkipResidueIdentification (options_ vf)) then
    Ok (mkVF (options_ vf) (samples_ vf) poles' (weights_ vf)
             A' SERB SERC SERD SERE)
  else
    Ok (mkVF (options_ vf) (samples_ vf) poles' (weights_ vf)
             A' (replicate N 1%Z) (mconst Nc N C0)
             (replicate Nc C0) (replicate Nc C0)).

(** *** Evaluation of the fitted model

    The three evaluators are [const] member functions.  They are modelled
    like every other member function, as a run that returns its value and
    the object as it leaves it. *)




End Model.

(** ** Notions of the specification *)

(** The conjugate-pair invariant of a pole sequence, read from left to
    right: a real pole stands alone, a complex pole is immediately followed
    by its conjugate. *)
Inductive conj_paired (ext : Externals) : list Complex -> Prop :=
| conj_paired_nil : conj_paired ext []
| conj_paired_real p l :
    isReal ext p = true -> conj_paired ext l -> conj_paired ext (p :: l)
| conj_paired_pair p l :
    isReal ext p = false -> conj_paired ext l ->
    conj_paired ext (p :: conj p :: l).

(** The classification the specification describes: [0] for a real pole,
    [1] for the first and [2] for the second member of a pair. *)
Fixpoint pairTags (ext : Externals) (poles : list Complex) : list Z :=
  match poles with
  | [] => []
  | p :: l =>
    if isReal ext p then 0%Z :: pairTags ext l
    else match l with
         | [] => [1%Z]
         | _ :: l' => 1%Z :: 2%Z :: pairTags ext l'
         end
  end.

(** The sorting key [(|imag|, |real|)] of a pole and the lexicographic order
    on keys. *)
Definition keyOf (z : Complex) : Complex :=
  Cplx (Qcabs (imag z)) (Qcabs (real z)).

Definition key_lt (a b : Complex) : Prop :=
  (real a < real b)%Qc \/ (real a = real b /\ (imag a < imag b)%Qc).

Definition key_le (a b : Complex) : Prop :=
  (real a < real b)%Qc \/ (real a = real b /\ (imag a <= imag b)%Qc).

(** Canonical pairing: as [conj_paired], and the first member of every pair
    is the one with the positive imaginary part. *)
Inductive canonical_pairs (ext : Externals) : list Complex -> Prop :=
| canonical_nil : canonical_pairs ext []
| canonical_real p l :
    isReal ext p = true -> canonical_pairs ext l -> canonical_pairs ext (p :: l)
| canonical_pair p l :
    isReal ext p = false -> (0 < imag p)%Qc -> canonical_pairs ext l ->
    canonical_pairs ext (p :: conj p :: l).

(** What Eigen's solver returns for a real matrix: a real eigenvalue, or a
    complex eigenvalue immediately followed by its conjugate. *)
Inductive eig_paired : list Complex -> Prop :=
| eig_paired_nil : eig_paired []
| eig_paired_real z l : imag z = 0%Qc -> eig_paired l -> eig_paired (z :: l)
| eig_paired_pair z l : eig_paired l -> eig_paired (z :: conj z :: l).

(** The same for a list of sorting keys: a key of a real number, or a key
    that occurs twice in a row. *)
Inductive key_paired : list Complex -> Prop :=
| key_paired_nil : key_paired []
| key_paired_real k l : real k = 0%Qc -> key_paired l -> key_paired (k :: l)
| key_paired_pair k l : key_paired l -> key_paired (k :: k :: l).

(** The reflection [stabilise] applies to one eigenvalue. *)
Definition reflect (ext : Externals) (z : Complex) : Complex :=
  if greater ext (real z) 0%Qc then CsubR z (2 * real z)%Qc else z.

(** What the loop [rebuild] computes, by recursion on the sorted keys;
    [None] when the keys end inside a pair. *)
Fixpoint rebuild_list (ext : Externals) (aux : list Complex) : option (list Complex) :=
  match aux with
  | [] => Some []
  | a :: l =>
    if equal ext (real a) 0%Qc then
      r ← rebuild_list ext l; Some (Cplx (- imag a) (real a) :: r)
    else
      match l with
      | [] => None
      | b :: l' =>
        r ← rebuild_list ext l';
        Some (Cplx (- imag a) (real a) :: Cplx (- imag b) (- real b) :: r)
      end
  end.

(** A matrix of [r] rows of [c] coefficients each. *)
Definition has_dims {A : Type} (r c : nat) (M : Mat A) : Prop :=
  length M = r /\ Forall (fun row => length row = c) M.

#[global] Instance Complex_eq_dec : EqDecision Complex.
Proof. solve_decision. Defined.

(** A sorting key is a pair of absolute values. *)
Definition nonneg_key (a : Complex) : Prop := (0 <= real a)%Qc /\ (0 <= imag a)%Qc.

(** Every key that the tolerance test does not take for real occurs an even
    number of times. *)
Definition even_keys (ext : Externals) (K : list Complex) : Prop :=
  forall k, equal ext (real k) 0%Qc = false ->
    Nat.even (count_occ Complex_eq_dec K k) = true.

(** The eigenvalues as [relocate] sorts them: reflected when [stable] is
    set. *)
Definition relocated_eigenvalues (ext : Externals) (stable : bool) (ZER : Mat Qc)
    : list Complex :=
  if stable then map (reflect ext) (eigenvalues ext ZER) else eigenvalues ext ZER.

(** The invariants of a fitting instance on which [fit] relies: a sample
    set that is not empty and has one response width, weights of its
    dimensions, and poles that satisfy the conjugate-pair invariant. *)
Definition well_formed (ext : Externals) (vf : VectorFitting) : Prop :=
  exists Nc,
    getResponseSize vf = Ok Nc /\
    Forall (fun s : Sample => length s.2 = Nc) (samples_ vf) /\
    length (weights_ vf) = getSamplesSize vf /\
    Forall (fun row : list Qc => length row = Nc) (weights_ vf) /\
    conj_paired ext (poles_ vf).

(** ** A concrete instance

    Stand-ins for the externals, and a small fitting problem, on which the
    theorems below are exercised. *)

(** Modelled from the spec: the tolerance comparisons of the project's math
    utilities are not among the sources; the spec asks for a fixed small
    epsilon wherever a number is tested for being zero or above a
    threshold. *)
Definition epsilon : Qc := Q2Qc (1 # 1000000000).

Definition tol_equal (a b : Qc) : bool := bool_decide (Qcabs (a - b) ≤ epsilon)%Qc.

Definition tol_lower (a b : Qc) : bool := Rltb a b && negb (tol_equal a b).

Definition tol_greater (a b : Qc) : bool := Rltb b a && negb (tol_equal a b).

(** [n] values from [range.1] to [range.2], evenly spaced. *)
Definition even_linspace (range : Qc * Qc) (n : nat) : list Qc :=
  map (fun i => (range.1 + ofNat i * (range.2 - range.1) / ofNat (n - 1))%Qc)
      (seq 0 n).

(** A square root to three decimals. *)
Definition approx_sqrt (a : Qc) : Qc :=
  Q2Qc (Z.sqrt (Qnum (this a) * 1000000 / Zpos (Qden (this a))) # 1000).

(** A solver that reports unstable pairs [k ± 2i], and a real eigenvalue when
    one is left over. *)
Definition demo_eigenvalue (M : Mat Qc) (i : nat) : Complex :=
  if Nat.even i then
    if decide (i + 1 < length M) then Cplx (ofNat (i + 1)) 2
    else Cplx (- ofNat (i + 1)) 0
  else conj (Cplx (ofNat i) 2).

Definition demo_externals : Externals :=
  mkExternals tol_equal tol_lower tol_greater
    (Q2Qc (1 # 1000000000000000000)) (Q2Qc (1000000000000000000 # 1))
    even_linspace approx_sqrt
    (fun _ i j => if decide (i = j) then 1%Qc else 0%Qc)
    (fun _ _ _ => 1%Qc)
    (fun _ _ _ => C1)
    demo_eigenvalue
    (fun _ => 0%Qc) (fun _ => C0) (fun _ => 0%Z).

Definition demo_options : Options := mkOptions false false true true constant.

Definition demo_samples : list Sample :=
  [ (Cplx 0 1, [Cplx 1 0]);
    (Cplx 0 2, [Cplx (Q2Qc (1 # 2)) (Q2Qc (1 # 3))]) ].

Definition demo_poles : list Complex :=
  [Cplx (-1) 2; Cplx (-1) (-2); Cplx (- Qc_of_Z 3) 0].

(** The instance [VectorFitting(demo_samples, demo_poles, options, {})]; the
    default stands for a construction that fails. *)
Definition construct (options : Options) : VectorFitting :=
  match VectorFitting_poles demo_externals demo_samples demo_poles options [] with
  | Ok vf => vf
  | Err _ => mkVF options [] [] [] [] [] [] [] []
  end.

Definition demo_vf : VectorFitting := construct demo_options.

(** [demo_vf] after [fit()]. *)
Definition demo_fitted : VectorFitting :=
  match fit demo_externals demo_vf with
  | Ok vf => vf
  | Err _ => demo_vf
  end.

(** The same construction under other options, and the outcome of [fit]. *)
Definition demo_no_relax : VectorFitting :=
  construct (mkOptions false false false true constant).

Definition demo_residue_only : VectorFitting :=
  construct (mkOptions true false true true constant).

Definition demo_poles_only : VectorFitting :=
  construct (mkOptions false true true true constant).

Definition fitted (vf : VectorFitting) : VectorFitting :=
  match fit demo_externals vf with
  | Ok vf' => vf'
  | Err _ => vf
  end.


(** ** Proof tools *)

#[local] Arguments eget : simpl never.
#[local] Arguments eset : simpl never.
#[local] Arguments vget : simpl never.
#[local] Arguments vset : simpl never.
#[local] Arguments mget : simpl never.
#[local] Arguments mset : simpl never.

(** One step of a run whose head is known. *)
Tactic Notation "run" :=
  cbn [mbind result_bind mret result_ret fst snd].
Tactic Notation "run" "in" hyp(H) :=
  cbn [mbind result_bind mret result_ret fst snd] in H.

(** Splits a successful run at its outermost binds. *)
Ltac inv_bind :=
  repeat match goal with
  | H : ?m ≫= ?f = Ok ?b |- _ =>
    let x := fresh "x" in
    let Hx := fresh "Hx" in
    let H' := fresh "H" in
    assert (exists a, m = Ok a /\ f a = Ok b) as (x & Hx & H')
      by (destruct m; [eexists; split; [reflexivity | exact H] | discriminate H]);
    clear H; rename H' into H; simpl in H
  | H : Ok _ = Ok _ |- _ => injection H as H; subst
  | H : Err _ = Ok _ |- _ => discriminate H
  | H : (let '(_, _) := ?p in _) = Ok _ |- _ => destruct p; simpl in H
  end.

(** * Proofs *)

(** ** The run monad and the loops *)

Lemma bind_Ok {A B : Type} (m : result A) (f : A -> result B) (b : B) :
  m ≫= f = Ok b -> exists a, m = Ok a /\ f a = Ok b.
Proof. destruct m as [a|e]; simpl; [eauto | discriminate]. Qed.

Lemma for_range_S {St : Type} i n (body : nat -> St -> result St) s :
  for_range i (S n) body s = s' ← body i s; for_range (S i) n body s'.
Proof. reflexivity. Qed.

Lemma for_idx_S {St : Type} fuel step i n (body : nat -> St -> result (nat * St)) s :
  for_idx (S fuel) step i n body s =
  if decide (i < n) then r ← body i s; for_idx fuel step (r.1 + step) n body r.2
  else Ok s.
Proof. reflexivity. Qed.

(** Fuel beyond the number of rounds left changes nothing: a loop whose
    body never moves the index back ends before [n - i] rounds are over. *)
Lemma for_idx_fuel {St : Type} (step n : nat)
    (body : nat -> St -> result (nat * St)) :
  0 < step ->
  (forall i s r, body i s = Ok r -> i <= r.1) ->
  forall fuel fuel' i s,
    n - i <= fuel -> n - i <= fuel' ->
    for_idx fuel step i n body s = for_idx fuel' step i n body s.
Proof.
  intros Hstep Hmono. induction fuel as [|fuel IH]; intros fuel' i s H1 H2.
  - destruct fuel'; [reflexivity |].
    rewrite for_idx_S, decide_False by lia. reflexivity.
  - destruct fuel'.
    + rewrite for_idx_S, decide_False by lia. reflexivity.
    + rewrite !for_idx_S. destruct (decide (i < n)); [| reflexivity].
      destruct (body i s) as [r|e] eqn:Hb; run; [| reflexivity].
      pose proof (Hmono _ _ _ Hb). apply IH; lia.
Qed.

Lemma for_range_inv {St : Type} (P : St -> Prop) (body : nat -> St -> result St) :
  forall n i s,
    P s ->
    (forall j s, i <= j < i + n -> P s -> exists s', body j s = Ok s' /\ P s') ->
    exists s', for_range i n body s = Ok s' /\ P s'.
Proof.
  induction n as [|n IH]; intros i s Hs Hbody; simpl.
  - eauto.
  - destruct (Hbody i s) as (s1 & -> & Hs1); [lia | assumption |]. simpl.
    apply IH; [assumption |]. intros j s2 Hj Hs2. apply Hbody; [lia | assumption].
Qed.

Lemma for_loop_inv {St : Type} (P : St -> Prop) (body : nat -> St -> result St) n s :
  P s ->
  (forall j s, j < n -> P s -> exists s', body j s = Ok s' /\ P s') ->
  exists s', for_loop n body s = Ok s' /\ P s'.
Proof.
  intros Hs Hbody. apply for_range_inv; [assumption |].
  intros j s0 Hj. apply Hbody. lia.
Qed.

Lemma for_loop_then {St B : Type} (P : St -> Prop) (body : nat -> St -> result St)
    n s (f : St -> result B) :
  P s ->
  (forall j s, j < n -> P s -> exists s', body j s = Ok s' /\ P s') ->
  (forall s', P s' -> exists r, f s' = Ok r) ->
  exists r, for_loop n body s ≫= f = Ok r.
Proof.
  intros Hs Hbody Hf.
  destruct (for_loop_inv P body n s Hs Hbody) as (s' & -> & Hs').
  run. apply Hf. assumption.
Qed.

Lemma for_range_post {St : Type} (P : St -> Prop) (body : nat -> St -> result St) :
  forall n i s s',
    for_range i n body s = Ok s' ->
    P s ->
    (forall j s s', i <= j < i + n -> body j s = Ok s' -> P s -> P s') ->
    P s'.
Proof.
  induction n as [|n IH]; intros i s s' Hrun Hs Hbody; simpl in Hrun.
  - injection Hrun as <-. assumption.
  - apply bind_Ok in Hrun. destruct Hrun as (s1 & H1 & Hrun).
    apply (IH (S i) s1 s' Hrun).
    + apply (Hbody i s s1); [lia | assumption | assumption].
    + intros j s2 s3 Hj. apply Hbody. lia.
Qed.

Lemma for_loop_post {St : Type} (P : St -> Prop) (body : nat -> St -> result St) n s s' :
  for_loop n body s = Ok s' ->
  P s ->
  (forall j s s', j < n -> body j s = Ok s' -> P s -> P s') ->
  P s'.
Proof.
  intros Hrun Hs Hbody. apply (for_range_post P body n 0 s s' Hrun Hs).
  intros j s1 s2 Hj. apply Hbody. lia.
Qed.

(** ** Checked accesses *)

Lemma eget_Ok {A : Type} (v : list A) i x : v !! i = Some x -> eget v i = Ok x.
Proof. unfold eget. intros ->. reflexivity. Qed.

Lemma eget_Ok_inv {A : Type} (v : list A) i x : eget v i = Ok x -> v !! i = Some x.
Proof. unfold eget. destruct (v !! i); [congruence | discriminate]. Qed.

Lemma eget_lt {A : Type} (v : list A) i : i < length v -> exists x, eget v i = Ok x.
Proof.
  intros H. destruct (lookup_lt_is_Some_2 v i H) as [x Hx].
  exists x. apply eget_Ok, Hx.
Qed.

Lemma eset_Ok {A : Type} (v : list A) i x : i < length v -> eset v i x = Ok (<[i := x]> v).
Proof. intros H. unfold eset. rewrite decide_True; [reflexivity | assumption]. Qed.

Lemma eset_Ok_inv {A : Type} (v v' : list A) i x :
  eset v i x = Ok v' -> i < length v /\ v' = <[i := x]> v.
Proof. unfold eset. destruct (decide _); [| discriminate]. intros [= <-]. auto. Qed.

Lemma vget_Ok {A : Type} (v : list A) i x : v !! i = Some x -> vget v i = Ok x.
Proof. unfold vget. intros ->. reflexivity. Qed.

Lemma vget_lt {A : Type} (v : list A) i : i < length v -> exists x, vget v i = Ok x.
Proof.
  intros H. destruct (lookup_lt_is_Some_2 v i H) as [x Hx].
  exists x. apply vget_Ok, Hx.
Qed.

Lemma vget_Err {A : Type} (v : list A) i : length v <= i -> vget v i = Err OutOfBounds.
Proof. intros H. unfold vget. rewrite lookup_ge_None_2; [reflexivity | lia]. Qed.

Lemma vset_Ok {A : Type} (v : list A) i x : i < length v -> vset v i x = Ok (<[i := x]> v).
Proof. intros H. unfold vset. rewrite decide_True; [reflexivity | assumption]. Qed.

Lemma vset_Err {A : Type} (v : list A) i x : length v <= i -> vset v i x = Err OutOfBounds.
Proof. intros H. unfold vset. rewrite decide_False; [reflexivity | lia]. Qed.


(** A loop that replaces every element of a vector by its image. *)
Lemma map_range {A : Type} (g : A -> A) (body : nat -> list A -> result (list A)) :
  (forall m v x, v !! m = Some x -> body m v = Ok (<[m := g x]> v)) ->
  forall n i l,
    i + n = length l ->
    for_range i n body (map g (take i l) ++ drop i l) = Ok (map g l).
Proof.
  intros Hbody. induction n as [|n IH]; intros i l Hin.
  - simpl. rewrite firstn_all2, drop_ge by lia. rewrite app_nil_r. reflexivity.
  - destruct (lookup_lt_is_Some_2 l i) as [x Hx]; [lia |].
    rewrite for_range_S.
    assert (Hlen : length (map g (take i l)) = i)
      by (rewrite length_map, length_take; lia).
    rewrite (Hbody _ _ x).
    2:{ rewrite lookup_app_r by lia. rewrite Hlen, Nat.sub_diag.
        rewrite lookup_drop, Nat.add_0_r. exact Hx. }
    run. rewrite insert_app_r_alt by lia. rewrite Hlen, Nat.sub_diag.
    rewrite (drop_S _ _ _ Hx). simpl.
    replace (map g (take i l) ++ g x :: drop (S i) l)
      with (map g (take (S i) l) ++ drop (S i) l).
    + apply IH. lia.
    + rewrite (take_S_r _ _ _ Hx), map_app, <- app_assoc. reflexivity.
Qed.

(** A loop that fills a vector with the images of the elements of another. *)
Lemma fill_range {A B : Type} (l : list A) (g : A -> B)
    (body : nat -> list B -> result (list B)) :
  (forall m v x, l !! m = Some x -> m < length v -> body m v = Ok (<[m := g x]> v)) ->
  forall n i v0,
    i + n = length l -> length v0 = length l ->
    for_range i n body (map g (take i l) ++ drop i v0) = Ok (map g l).
Proof.
  intros Hbody. induction n as [|n IH]; intros i v0 Hin Hv0.
  - simpl. rewrite firstn_all2, drop_ge by lia. rewrite app_nil_r. reflexivity.
  - destruct (lookup_lt_is_Some_2 l i) as [x Hx]; [lia |].
    destruct (lookup_lt_is_Some_2 v0 i) as [y Hy]; [lia |].
    rewrite for_range_S.
    assert (Hlen : length (map g (take i l)) = i)
      by (rewrite length_map, length_take; lia).
    rewrite (Hbody _ _ x Hx) by (rewrite length_app, length_drop; lia).
    run. rewrite insert_app_r_alt by lia. rewrite Hlen, Nat.sub_diag.
    rewrite (drop_S _ _ _ Hy). simpl.
    replace (map g (take i l) ++ g x :: drop (S i) v0)
      with (map g (take (S i) l) ++ drop (S i) v0).
    + apply IH; lia.
    + rewrite (take_S_r _ _ _ Hx), map_app, <- app_assoc. reflexivity.
Qed.

(** The two loops that copy a vector coefficient by coefficient. *)
Lemma copy_loop {A : Type} (l v0 : list A) :
  length v0 = length l ->
  for_loop (length l) (fun i v => p ← eget l i; eset v i p) v0 = Ok l.
Proof.
  intros Hlen. unfold for_loop.
  pose proof (fill_range l id (fun i v => p ← eget l i; eset v i p)) as Hfill.
  rewrite map_id in Hfill. apply (Hfill) with (i := 0) (v0 := v0); [| lia | assumption].
  intros m v x Hx Hm. cbv beta. rewrite (eget_Ok _ _ _ Hx). run.
  apply eset_Ok. assumption.
Qed.

Lemma copy_loop_vector {A : Type} (l v0 : list A) :
  length v0 = length l ->
  for_loop (length l) (fun i v => p ← vget l i; eset v i p) v0 = Ok l.
Proof.
  intros Hlen. unfold for_loop.
  pose proof (fill_range l id (fun i v => p ← vget l i; eset v i p)) as Hfill.
  rewrite map_id in Hfill. apply (Hfill) with (i := 0) (v0 := v0); [| lia | assumption].
  intros m v x Hx Hm. cbv beta. rewrite (vget_Ok _ _ _ Hx). run.
  apply eset_Ok. assumption.
Qed.

Lemma mconst_dims {A : Type} r c (x : A) : has_dims r c (mconst r c x).
Proof.
  split.
  - unfold mconst. apply length_replicate.
  - unfold mconst. apply Forall_replicate. apply length_replicate.
Qed.

Lemma mget_dims {A : Type} r c (M : Mat A) i j :
  has_dims r c M -> i < r -> j < c -> exists x, mget M i j = Ok x.
Proof.
  intros [Hr Hc] Hi Hj. unfold mget.
  destruct (lookup_lt_is_Some_2 M i) as [row Hrow]; [lia |].
  rewrite (eget_Ok _ _ _ Hrow). simpl.
  apply eget_lt. rewrite Forall_lookup in Hc. rewrite (Hc i row Hrow). assumption.
Qed.

Lemma mset_dims {A : Type} r c (M : Mat A) i j x :
  has_dims r c M -> i < r -> j < c ->
  exists M', mset M i j x = Ok M' /\ has_dims r c M'.
Proof.
  intros [Hr Hc] Hi Hj. unfold mset.
  destruct (lookup_lt_is_Some_2 M i) as [row Hrow]; [lia |].
  rewrite (eget_Ok _ _ _ Hrow). simpl.
  assert (Hlen : length row = c) by (rewrite Forall_lookup in Hc; eauto).
  rewrite eset_Ok by lia. simpl. rewrite eset_Ok by lia.
  eexists. split; [reflexivity |]. split.
  - rewrite length_insert. assumption.
  - apply Forall_insert; [assumption |]. rewrite length_insert. assumption.
Qed.

Lemma mset_dims_post {A : Type} r c (M M' : Mat A) i j x :
  mset M i j x = Ok M' -> has_dims r c M -> has_dims r c M'.
Proof.
  unfold mset. intros H [Hr Hc]. inv_bind.
  apply eget_Ok_inv in Hx. apply eset_Ok_inv in Hx0 as [? ->].
  apply eset_Ok_inv in H as [? ->].
  assert (Hlen : length x0 = c) by (rewrite Forall_lookup in Hc; eauto).
  split.
  - rewrite length_insert. assumption.
  - apply Forall_insert; [assumption |]. rewrite length_insert. assumption.
Qed.

(** ** [fit]: the parts that do not depend on the numerics *)

Lemma getCIndex_nil ext : getCIndex ext [] = Ok [].
Proof. reflexivity. Qed.

Lemma residueIdentification_Ok ext vf Ns N Nc roetter SERD SERE r :
  residueIdentification ext vf Ns N Nc roetter SERD SERE = Ok r ->
  r.1.1.1.1 = roetter /\ r.1.1.1.2 = replicate N 1%Z.
Proof.
  unfold residueIdentification. intros H. inv_bind. simpl. auto.
Qed.

Section FitShape.

Variable ext : Externals.
Variable vf vf' : VectorFitting.
Hypothesis Hfit : fit ext vf = Ok vf'.

Lemma fit_skip_residue :
  isSkipResidueIdentification (options_ vf) = true ->
  exists Nc, getResponseSize vf = Ok Nc /\
    B_ vf' = replicate (getOrder vf) 1%Z /\
    C_ vf' = mconst Nc (getOrder vf) C0 /\
    D_ vf' = replicate Nc C0 /\
    E_ vf' = replicate Nc C0.
Proof.
  intros Hskip. pose proof Hfit as H. unfold fit in H. rewrite Hskip in H. simpl in H.
  inv_bind. exists x. simpl. repeat split; try reflexivity. assumption.
Qed.


Lemma fit_relocated :
  isSkipPoleIdentification (options_ vf) = false ->
  exists Nc roetter,
    getResponseSize vf = Ok Nc /\
    poleIdentification ext vf (getSamplesSize vf) (getOrder vf) Nc = Ok roetter /\
    poles_ vf' = roetter.
Proof.
  intros Hskip. pose proof Hfit as H. unfold fit in H. rewrite Hskip in H. simpl in H.
  inv_bind. exists x.
  destruct (isSkipResidueIdentification (options_ vf)); simpl in *.
  - inv_bind. simpl. eauto.
  - inv_bind. simpl.
    match goal with
    | Hr : residueIdentification _ _ _ _ _ _ _ _ = Ok _ |- _ =>
      apply residueIdentification_Ok in Hr; simpl in Hr; destruct Hr as [-> _]
    end.
    eauto.
Qed.

End FitShape.

(** C2.  With pole identification skipped and residue identification run,
    [fit] does not use the input poles: the residue stage takes its poles
    from [roetter], which is then still empty, and the first read of the
    classification of a pole fails; no model is produced. *)
Theorem fit_residue_only_fails (ext : Externals) (vf : VectorFitting) :
  isSkipPoleIdentification (options_ vf) = true ->
  isSkipResidueIdentification (options_ vf) = false ->
  poles_ vf <> [] ->
  fit ext vf = Err AssertionFailed.
Proof.
  intros Hpole Hres Hpoles. unfold fit, getResponseSize, getOrder, getSamplesSize.
  destruct (samples_ vf) as [|s samples] eqn:Hs; [reflexivity |]. simpl.
  rewrite copy_loop by (rewrite length_map, length_seq; reflexivity). simpl.
  rewrite Hpole, Hres. simpl.
  unfold residueIdentification. rewrite getCIndex_nil. simpl.
  destruct (poles_ vf) as [|p poles]; [congruence |]. reflexivity.
Qed.

(** ** Construction from an order *)

Lemma min_element_cons {A : Type} (comp : A -> A -> bool) x l :
  exists y, min_element comp (x :: l) = Some y.
Proof. simpl. eauto. Qed.

Lemma max_element_cons {A : Type} (comp : A -> A -> bool) x l :
  exists y, max_element comp (x :: l) = Some y.
Proof. simpl. eauto. Qed.

(** The seeding loop of an odd order runs past the end of [poles]: its last
    round writes [poles[order]]. *)
Lemma seed_loop_fails (imagParts : list Qc) (order : nat) :
  order mod 2 <> 0 ->
  forall fuel i poles,
    length poles = order -> i <= order -> i mod 2 = 0 -> order < i + 2 * fuel ->
    for_idx fuel 2 i order (fun i poles =>
      imag ← vget imagParts (i / 2);
      let real := (- imag / Qc_of_Z 100)%Qc in
      poles ← vset poles i (Cplx real imag);
      p ← vget poles i;
      poles ← vset poles (i + 1) (conj p);
      Ok (i, poles)) poles = Err OutOfBounds.
Proof.
  intros Hodd. induction fuel as [|fuel IH]; intros i poles Hlen Hi Heven Hfuel.
  - assert (i = order) by lia. subst i. contradiction.
  - rewrite for_idx_S. assert (i <> order) by (intros ->; contradiction).
    rewrite decide_True by lia.
    destruct (vget imagParts (i / 2)) as [imag|e] eqn:Himag; run.
    + rewrite vset_Ok by lia. run.
      rewrite (vget_Ok _ _ (Cplx (- imag / Qc_of_Z 100) imag))
        by (apply list_lookup_insert_eq; lia).
      run. destruct (decide (i + 1 < order)) as [Hlt|Hge].
      * rewrite vset_Ok by (rewrite length_insert; lia). run.
        apply IH.
        -- rewrite !length_insert. assumption.
        -- lia.
        -- replace (i + 2) with (i + 1 * 2) by lia.
           rewrite Nat.Div0.mod_add. assumption.
        -- lia.
      * rewrite vset_Err by (rewrite length_insert; lia). reflexivity.
    + unfold vget in Himag. destruct (imagParts !! (i / 2)); [discriminate |].
      injection Himag as <-. reflexivity.
Qed.

(** The fuel of the seeding loop is never used up. *)
Lemma seed_loop_fuel (imagParts : list Qc) (order fuel : nat) (poles : list Complex) :
  order <= fuel ->
  for_idx fuel 2 0 order (fun i poles =>
    imag ← vget imagParts (i / 2);
    let real := (- imag / Qc_of_Z 100)%Qc in
    poles ← vset poles i (Cplx real imag);
    p ← vget poles i;
    poles ← vset poles (i + 1) (conj p);
    Ok (i, poles)) poles =
  for_idx order 2 0 order (fun i poles =>
    imag ← vget imagParts (i / 2);
    let real := (- imag / Qc_of_Z 100)%Qc in
    poles ← vset poles i (Cplx real imag);
    p ← vget poles i;
    poles ← vset poles (i + 1) (conj p);
    Ok (i, poles)) poles.
Proof.
  intros Hfuel. apply for_idx_fuel; [lia | | lia | lia].
  intros i s r H. inv_bind. simpl. lia.
Qed.

(** C1.  The parity test of the constructor is inverted: an even order is
    refused with the message that asks for an even order; an odd order is
    let through, and its seeding loop then leaves the pole vector. *)
Theorem order_constructor_outcome (ext : Externals) (samples : list Sample)
    (order : nat) (options : Options) (weights : list (list Real)) :
  samples <> [] ->
  (order mod 2 = 0 ->
   VectorFitting_order ext samples order options weights =
   Err (RuntimeError "Default starting poles are complex, order must be even")) /\
  (order mod 2 <> 0 ->
   VectorFitting_order ext samples order options weights = Err OutOfBounds).
Proof.
  intros Hs. unfold VectorFitting_order.
  destruct samples as [|s samples]; [congruence |].
  change (length (s :: samples) =? 0) with false. cbv iota.
  split; intros Hpar.
  - rewrite Hpar. reflexivity.
  - destruct (Nat.eqb_spec (order mod 2) 0) as [Heq|_]; [contradiction |].
    destruct (min_element_cons sampleOrdering s samples) as [mn ->].
    destruct (max_element_cons sampleOrdering s samples) as [mx ->].
    run. unfold deref. run.
    rewrite seed_loop_fails; [reflexivity | assumption | | | | ].
    + apply length_replicate.
    + lia.
    + reflexivity.
    + destruct order; [contradiction | lia].
Qed.

(** ** Validation and classification of the poles *)

Lemma Reqb_eq (a b : Qc) : Reqb a b = true <-> a = b.
Proof. unfold Reqb. apply bool_decide_eq_true. Qed.

Lemma Ceqb_eq (a b : Complex) : Ceqb a b = true <-> a = b.
Proof.
  unfold Ceqb. rewrite andb_true_iff, !Reqb_eq.
  destruct a, b; simpl. split; [intros [-> ->]; reflexivity | intros [= -> ->]; auto].
Qed.

Lemma conj_paired_real_inv ext p l :
  isReal ext p = true -> conj_paired ext (p :: l) -> conj_paired ext l.
Proof. intros Hp H. inversion H; subst; [assumption | congruence]. Qed.

Lemma conj_paired_pair_inv ext p l :
  isReal ext p = false -> conj_paired ext (p :: l) ->
  exists l', l = conj p :: l' /\ conj_paired ext l'.
Proof. intros Hp H. inversion H; subst; [congruence | eauto]. Qed.

Lemma checkPoles_range ext (poles : list Complex) :
  forall fuel i,
    length poles - i <= fuel ->
    let run := for_idx fuel 1 i (length poles) (fun i (u : unit) =>
      currentPole ← vget poles i;
      if negb (isReal ext currentPole) then
        next ← vget poles (i + 1);
        if Ceqb (conj currentPole) next then Ok (i + 1, u)
        else Err AssertionFailed
      else Ok (i, u)) tt in
    (conj_paired ext (drop i poles) -> run = Ok tt) /\
    (~ conj_paired ext (drop i poles) ->
     run = Err AssertionFailed \/ run = Err OutOfBounds).
Proof.
  induction fuel as [|fuel IH]; intros i Hfuel; cbv zeta.
  - rewrite drop_ge by lia. simpl. split; [reflexivity |].
    intros H. destruct H. constructor.
  - rewrite for_idx_S. destruct (decide (i < length poles)) as [Hi|Hi].
    2:{ rewrite drop_ge by lia. split; [reflexivity |].
        intros H. destruct H. constructor. }
    destruct (lookup_lt_is_Some_2 poles i Hi) as [p Hp].
    rewrite (drop_S _ _ _ Hp), (vget_Ok _ _ _ Hp). run.
    destruct (isReal ext p) eqn:Hreal; cbn [negb]; run.
    + destruct (IH (i + 1)) as [IHok IHerr]; [lia |].
      replace (S i) with (i + 1) by lia. split.
      * intros H. apply IHok. eapply conj_paired_real_inv; eassumption.
      * intros H. apply IHerr. intros H'. apply H. constructor; assumption.
    + destruct (poles !! (i + 1)) as [q|] eqn:Hq.
      * rewrite (vget_Ok _ _ _ Hq). run.
        replace (S i) with (i + 1) by lia. rewrite (drop_S _ _ _ Hq).
        destruct (Ceqb (conj p) q) eqn:Hc; run.
        -- apply Ceqb_eq in Hc. subst q.
           destruct (IH (i + 1 + 1)) as [IHok IHerr]; [lia |].
           replace (S (i + 1)) with (i + 1 + 1) by lia. split.
           ++ intros H. apply IHok.
              destruct (conj_paired_pair_inv _ _ _ Hreal H) as (l' & Hl & Hl').
              injection Hl as <-. assumption.
           ++ intros H. apply IHerr. intros H'. apply H. constructor; assumption.
        -- split; [| auto].
           intros H.
           destruct (conj_paired_pair_inv _ _ _ Hreal H) as (l' & Hl & _).
           injection Hl as Hq' _.
           assert (Ceqb (conj p) q = true) by (apply Ceqb_eq; congruence).
           congruence.
      * rewrite vget_Err by (apply lookup_ge_None_1; assumption). run.
        split; [| auto].
        intros H.
        destruct (conj_paired_pair_inv _ _ _ Hreal H) as (l' & Hl & _).
        rewrite drop_ge in Hl by (apply lookup_ge_None_1 in Hq; lia).
        discriminate.
Qed.

Lemma checkPoles_paired ext poles :
  conj_paired ext poles -> checkPoles ext poles = Ok tt.
Proof.
  intros H. unfold checkPoles.
  destruct (checkPoles_range ext poles (length poles) 0) as [Hok _]; [lia |].
  apply Hok. assumption.
Qed.


(** The fuel of the validation loop is never used up. *)
Lemma checkPoles_fuel ext (poles : list Complex) (fuel : nat) :
  length poles <= fuel ->
  for_idx fuel 1 0 (length poles) (fun i (u : unit) =>
    currentPole ← vget poles i;
    if negb (isReal ext currentPole) then
      next ← vget poles (i + 1);
      if Ceqb (conj currentPole) next then Ok (i + 1, u)
      else Err AssertionFailed
    else Ok (i, u)) tt = checkPoles ext poles.
Proof.
  intros Hfuel. unfold checkPoles. apply for_idx_fuel; [lia | | lia | lia].
  intros i s r H. inv_bind. destruct (negb _).
  - inv_bind. destruct (Ceqb _ _); inv_bind. simpl. lia.
  - inv_bind. simpl. lia.
Qed.

(** A pole sequence that satisfies the invariant is accepted: the
    construction stores the samples, the poles and the options. *)
Lemma paired_poles_accepted ext (samples : list Sample) (poles : list Complex)
    (options : Options) :
  samples <> [] -> conj_paired ext poles ->
  exists vf,
    VectorFitting_poles ext samples poles options [] = Ok vf /\
    samples_ vf = samples /\ poles_ vf = poles /\ options_ vf = options.
Proof.
  intros Hs Hp. unfold VectorFitting_poles.
  destruct samples as [|s samples]; [congruence |].
  change (length (s :: samples) =? 0) with false. cbv iota.
  unfold init. rewrite (checkPoles_paired ext poles Hp). run.
  rewrite copy_loop_vector by apply length_replicate. run.
  simpl. eexists. repeat split.
Qed.


Section Classification.

Variable ext : Externals.

(** The tolerance test for zero does not depend on the sign. *)
Hypothesis equal_opp : forall x : Qc, equal ext (- x)%Qc 0%Qc = equal ext x 0%Qc.

Lemma isReal_conj p : isReal ext (conj p) = isReal ext p.
Proof. unfold isReal, conj. simpl. apply equal_opp. Qed.

Lemma getCIndex_range (poles : list Complex) :
  forall n i T,
    conj_paired ext (drop i poles) ->
    length T = i -> i + n = length poles ->
    (i = 0 \/ exists t, T !! (i - 1) = Some t /\ (t = 0%Z \/ t = 2%Z)) ->
    for_range i n (fun m cindex =>
      p ← eget poles m;
      if negb (equal ext (imag p) 0%Qc) then
        if decide (m = 0) then eset cindex m 1%Z
        else
          c ← eget cindex (m - 1);
          if decide (c = 0%Z \/ c = 2%Z) then
            cindex ← eset cindex m 1%Z;
            eset cindex (m + 1) 2%Z
          else eset cindex m 2%Z
      else Ok cindex) (T ++ replicate n 0%Z)
    = Ok (T ++ pairTags ext (drop i poles)).
Proof.
  induction n as [n IH] using lt_wf_ind. intros i T Hp HT Hn Hlast.
  destruct n as [|n].
  - rewrite drop_ge by lia. reflexivity.
  - destruct (lookup_lt_is_Some_2 poles i) as [p Hpi]; [lia |].
    rewrite (drop_S _ _ _ Hpi) in Hp |- *.
    rewrite for_range_S, (eget_Ok _ _ _ Hpi). run.
    destruct (isReal ext p) eqn:Hreal.
    + (* a real pole *)
      unfold isReal in Hreal. rewrite Hreal. cbn [negb]. run.
      change (pairTags ext (p :: drop (S i) poles))
        with (if isReal ext p then 0%Z :: pairTags ext (drop (S i) poles)
              else match drop (S i) poles with
                   | [] => [1%Z]
                   | _ :: l' => 1%Z :: 2%Z :: pairTags ext l'
                   end).
      unfold isReal. rewrite Hreal.
      change (T ++ replicate (S n) 0%Z) with (T ++ [0%Z] ++ replicate n 0%Z).
      change (T ++ 0%Z :: pairTags ext (drop (S i) poles))
        with (T ++ [0%Z] ++ pairTags ext (drop (S i) poles)).
      rewrite !app_assoc. apply IH.
      * lia.
      * eapply conj_paired_real_inv; [| eassumption]. exact Hreal.
      * rewrite length_app. simpl. lia.
      * lia.
      * right. exists 0%Z. split; [| auto].
        replace (S i - 1) with (length T + 0) by lia.
        rewrite lookup_app_r by lia. replace (length T + 0 - length T) with 0 by lia.
        reflexivity.
    + (* the first member of a pair *)
      destruct (conj_paired_pair_inv _ _ _ Hreal Hp) as (l' & Hl & Hl').
      assert (Hp1 : poles !! (S i) = Some (conj p)).
      { rewrite <- (Nat.add_0_r (S i)), <- lookup_drop, Hl. reflexivity. }
      assert (Hdrop : drop (S (S i)) poles = l').
      { rewrite (drop_S _ _ _ Hp1) in Hl. congruence. }
      destruct n as [|n].
      { apply lookup_lt_Some in Hp1. lia. }
      change (pairTags ext (p :: drop (S i) poles))
        with (if isReal ext p then 0%Z :: pairTags ext (drop (S i) poles)
              else match drop (S i) poles with
                   | [] => [1%Z]
                   | _ :: l' => 1%Z :: 2%Z :: pairTags ext l'
                   end).
      rewrite Hreal, Hl.
      assert (Hgoal : forall cindex,
        cindex = T ++ [1%Z; 2%Z] ++ replicate n 0%Z ->
        for_range (S (S i)) n (fun m cindex =>
          p ← eget poles m;
          if negb (equal ext (imag p) 0%Qc) then
            if decide (m = 0) then eset cindex m 1%Z
            else
              c ← eget cindex (m - 1);
              if decide (c = 0%Z \/ c = 2%Z) then
                cindex ← eset cindex m 1%Z;
                eset cindex (m + 1) 2%Z
              else eset cindex m 2%Z
          else Ok cindex) cindex = Ok (T ++ 1%Z :: 2%Z :: pairTags ext l')).
      { intros cindex ->. rewrite app_assoc.
        change (T ++ 1%Z :: 2%Z :: pairTags ext l')
          with (T ++ [1%Z; 2%Z] ++ pairTags ext l').
        rewrite app_assoc, <- Hdrop. apply IH.
        - lia.
        - rewrite Hdrop. assumption.
        - rewrite length_app. simpl. lia.
        - lia.
        - right. exists 2%Z. split; [| auto].
          replace (S (S i) - 1) with (length T + 1) by lia.
          rewrite lookup_app_r by lia.
          replace (length T + 1 - length T) with 1 by lia. reflexivity. }
      unfold isReal in Hreal. rewrite Hreal. cbn [negb].
      assert (Hreal' : equal ext (imag (conj p)) 0%Qc = false).
      { change (isReal ext (conj p) = false). rewrite isReal_conj. exact Hreal. }
      destruct (decide (i = 0)) as [Hi0|Hi0].
      * (* the pair that opens the sequence *)
        subst i. destruct T; [| discriminate]. simpl app.
        rewrite eset_Ok by (simpl; lia). run.
        rewrite for_range_S, (eget_Ok _ _ _ Hp1). run.
        rewrite Hreal'. cbn [negb]. rewrite decide_False by lia.
        change (1 - 0) with 1. change (1 - 1) with 0.
        rewrite (eget_Ok _ 0 1%Z) by reflexivity. run.
        rewrite decide_False by (intros [?|?]; discriminate).
        rewrite eset_Ok by (simpl; lia). run.
        apply (Hgoal _). reflexivity.
      * destruct Hlast as [?|(t & Ht & Htag)]; [contradiction |].
        rewrite (eget_Ok _ _ t) by (rewrite lookup_app_l by lia; exact Ht). run.
        rewrite decide_True by assumption.
        rewrite eset_Ok by (rewrite length_app, length_replicate; lia). run.
        rewrite eset_Ok
          by (rewrite length_insert, length_app, length_replicate; lia).
        run.
        rewrite for_range_S, (eget_Ok _ _ _ Hp1). run.
        rewrite Hreal'. cbn [negb]. rewrite decide_False by lia.
        replace (S i - 1) with i by lia.
        assert (Hins : <[i + 1 := 2%Z]> (<[i := 1%Z]> (T ++ replicate (S (S n)) 0%Z))
                       = T ++ [1%Z; 2%Z] ++ replicate n 0%Z).
        { rewrite insert_app_r_alt by lia. rewrite insert_app_r_alt by lia.
          replace (i - length T) with 0 by lia.
          replace (i + 1 - length T) with 1 by lia. reflexivity. }
        rewrite Hins.
        rewrite (eget_Ok _ i 1%Z)
          by (rewrite lookup_app_r by lia;
              replace (i - length T) with 0 by lia; reflexivity).
        run. rewrite decide_False by (intros [?|?]; discriminate).
        rewrite eset_Ok by (rewrite length_app; simpl; lia). run.
        apply Hgoal.
        rewrite insert_app_r_alt by lia.
        replace (S i - length T) with 1 by lia. reflexivity.
Qed.

Lemma getCIndex_paired (poles : list Complex) :
  conj_paired ext poles -> getCIndex ext poles = Ok (pairTags ext poles).
Proof.
  intros H. unfold getCIndex, for_loop.
  apply (getCIndex_range poles (length poles) 0 []); auto.
Qed.

End Classification.

Lemma pairTags_length ext poles :
  conj_paired ext poles -> length (pairTags ext poles) = length poles.
Proof.
  induction 1 as [|p l Hp _ IH|p l Hp _ IH]; simpl.
  - reflexivity.
  - rewrite Hp. simpl. congruence.
  - rewrite Hp. simpl. congruence.
Qed.

(** C8.  On a pole sequence that satisfies the conjugate-pair invariant,
    [getCIndex] runs through without leaving its vectors and returns the
    tags of the specification: [0] for a real pole, [1] and [2] for the two
    members of a pair, one tag per pole. *)
Theorem getCIndex_classifies (ext : Externals) (poles : list Complex) :
  (forall x : Qc, equal ext (- x)%Qc 0%Qc = equal ext x 0%Qc) ->
  conj_paired ext poles ->
  getCIndex ext poles = Ok (pairTags ext poles) /\
  length (pairTags ext poles) = length poles.
Proof.
  intros Hopp Hp. split.
  - apply getCIndex_paired; assumption.
  - apply pairTags_length. assumption.
Qed.

(** ** Evaluation *)



(** C10.  With residue identification skipped, a [fit] that returns leaves
    [B] all ones and [C], [D] and [E] all zeros, whatever they held
    before. *)
Theorem fit_skip_residue_resets (ext : Externals) (vf vf' : VectorFitting) :
  isSkipResidueIdentification (options_ vf) = true ->
  fit ext vf = Ok vf' ->
  exists Nc, getResponseSize vf = Ok Nc /\
    B_ vf' = replicate (getOrder vf) 1%Z /\
    C_ vf' = mconst Nc (getOrder vf) C0 /\
    D_ vf' = replicate Nc C0 /\
    E_ vf' = replicate Nc C0.
Proof. intros Hskip Hfit. eapply fit_skip_residue; eassumption. Qed.


(** ** The steps of the pole identification that precede the relaxation *)

Lemma mtab_dims {A : Type} r c (f : nat -> nat -> A) : has_dims r c (mtab r c f).
Proof.
  split.
  - unfold mtab. rewrite length_map, length_seq. reflexivity.
  - unfold mtab. apply List.Forall_forall. intros row Hrow.
    apply in_map_iff in Hrow as (i & <- & _).
    rewrite length_map, length_seq. reflexivity.
Qed.

Lemma poleBasis_ok (vf : VectorFitting) (cindex : list Z) :
  length cindex = getOrder vf ->
  exists r, poleBasis vf (getSamplesSize vf) (getOrder vf) cindex = Ok r.
Proof.
  intros Hc. unfold poleBasis, getOrder, getSamplesSize in *.
  set (N := length (poles_ vf)) in *. set (Ns := length (samples_ vf)).
  apply (for_loop_then (@has_dims Complex N N)).
  { apply mconst_dims. }
  { intros j L Hj HL. destruct (eget_lt (poles_ vf) j Hj) as [p ->]. run.
    apply mset_dims; assumption. }
  intros L HL.
  apply (for_loop_then (@has_dims Complex Ns (N + 2))).
  { apply mconst_dims. }
  { intros m Dk Hm HDk. destruct (eget_lt cindex m) as [c ->]; [lia |]. run.
    destruct (decide (c = 0%Z)); [| destruct (decide (c = 1%Z))].
    - apply for_loop_inv; [assumption |]. intros i Dk' Hi HDk'.
      destruct (vget_lt (samples_ vf) i Hi) as [s ->]. run.
      destruct (mget_dims N N L m m HL) as [l ->]; [lia | lia |]. run.
      apply mset_dims; [assumption | lia | lia].
    - apply for_loop_inv; [assumption |]. intros i Dk' Hi HDk'.
      destruct (vget_lt (samples_ vf) i Hi) as [s ->]. run.
      destruct (mget_dims N N L m m HL) as [l ->]; [lia | lia |]. run.
      match goal with
      | |- context [mget ?M m m] =>
        destruct (mget_dims N N M m m) as [lp ->]; [apply mtab_dims | lia | lia |]
      end.
      run.
      match goal with
      | |- context [mset Dk' i m ?v] =>
        destruct (mset_dims Ns (N + 2) Dk' i m v) as (Dk'' & -> & HDk'');
          [assumption | lia | lia |]
      end.
      run. apply mset_dims; [assumption | lia | lia].
    - eauto. }
  intros Dk HDk.
  apply (for_loop_then (@has_dims Complex Ns (N + 2))).
  { assumption. }
  { intros i Dk0 Hi HDk0.
    destruct (mset_dims Ns (N + 2) Dk0 i N C1) as (Dk1 & -> & HDk1);
      [assumption | lia | lia |].
    run. destruct (getAsymptoticTrend (options_ vf)); eauto.
    destruct (vget_lt (samples_ vf) i Hi) as [s ->]. run.
    apply mset_dims; [assumption | lia | lia]. }
  intros Dk' _. eauto.
Qed.

Lemma lsScale_ok ext (vf : VectorFitting) (Nc : nat) :
  has_dims (getSamplesSize vf) Nc (weights_ vf) ->
  Forall (fun s : Sample => length s.2 = Nc) (samples_ vf) ->
  exists r, lsScale ext vf (getSamplesSize vf) Nc = Ok r.
Proof.
  intros Hw Hs. unfold lsScale, getSamplesSize in *.
  apply (for_loop_then (fun _ : Qc => True)).
  { exact I. }
  { intros m scale Hm _. apply for_loop_inv; [exact I |]. intros i scale' Hi _.
    destruct (mget_dims _ _ (weights_ vf) i m Hw) as [w ->]; [lia | lia |]. run.
    destruct (lookup_lt_is_Some_2 (samples_ vf) i Hi) as [s Hsi].
    rewrite (vget_Ok _ _ _ Hsi). run.
    destruct (vget_lt s.2 m) as [f ->].
    { rewrite Forall_lookup in Hs. rewrite (Hs i s Hsi). assumption. }
    run. eauto. }
  intros scale _. eauto.
Qed.

Lemma getCIndex_length ext poles cindex :
  getCIndex ext poles = Ok cindex -> length cindex = length poles.
Proof.
  unfold getCIndex. intros H.
  apply (for_loop_post (fun c : list Z => length c = length poles) _ _ _ _ H).
  - apply length_replicate.
  - intros j s s' _ Hbody Hs.
    assert (Hset : forall (v v' : list Z) i x,
              eset v i x = Ok v' -> length v = length poles -> length v' = length poles).
    { intros v v' i x Hv Hl. apply eset_Ok_inv in Hv as [_ ->].
      rewrite length_insert. assumption. }
    inv_bind. destruct (negb _); [| congruence].
    destruct (decide (j = 0)); [eauto |].
    inv_bind. destruct (decide _); [| eauto].
    inv_bind. eauto.
Qed.

Lemma poleIdentification_no_relax ext vf Ns N Nc :
  isRelax (options_ vf) = false ->
  exists e, poleIdentification ext vf Ns N Nc = Err e.
Proof.
  intros Hrelax. unfold poleIdentification.
  destruct (getCIndex ext (poles_ vf)) as [cindex|e]; run; [| eauto].
  destruct (poleBasis vf Ns N cindex) as [[LAMBD Dk]|e]; run; [| eauto].
  destruct (lsScale ext vf Ns Nc) as [scale|e]; run; [| eauto].
  rewrite Hrelax. run. unfold relaxCheckFails. rewrite Hrelax. simpl. eauto.
Qed.

Lemma poleIdentification_not_implemented ext vf Nc cindex :
  isRelax (options_ vf) = false ->
  getCIndex ext (poles_ vf) = Ok cindex ->
  has_dims (getSamplesSize vf) Nc (weights_ vf) ->
  Forall (fun s : Sample => length s.2 = Nc) (samples_ vf) ->
  poleIdentification ext vf (getSamplesSize vf) (getOrder vf) Nc =
  Err (RuntimeError "Option to do not relax is not implemented").
Proof.
  intros Hrelax Hc Hw Hs. unfold poleIdentification. rewrite Hc. run.
  destruct (poleBasis_ok vf cindex) as [[LAMBD Dk] ->].
  { apply getCIndex_length in Hc. exact Hc. }
  run. destruct (lsScale_ok ext vf Nc Hw Hs) as [scale ->]. run.
  rewrite Hrelax. run. unfold relaxCheckFails. rewrite Hrelax. reflexivity.
Qed.

(** C7.  With [relax = false] and the pole identification not skipped,
    [fit] never returns a model; on a well-formed instance it ends in the
    error that says that the option is not implemented. *)
Theorem fit_no_relax_not_implemented (ext : Externals) (vf : VectorFitting) :
  isRelax (options_ vf) = false ->
  isSkipPoleIdentification (options_ vf) = false ->
  (exists e, fit ext vf = Err e) /\
  ((forall x : Qc, equal ext (- x)%Qc 0%Qc = equal ext x 0%Qc) ->
   well_formed ext vf ->
   fit ext vf = Err (RuntimeError "Option to do not relax is not implemented")).
Proof.
  intros Hrelax Hskip. split.
  - unfold fit. destruct (getResponseSize vf) as [Nc|e]; run; [| eauto].
    unfold getOrder.
    rewrite copy_loop by (rewrite length_map, length_seq; reflexivity). run.
    rewrite Hskip. cbn [negb].
    destruct (poleIdentification_no_relax ext vf (getSamplesSize vf)
                (length (poles_ vf)) Nc Hrelax) as [e ->].
    run. eauto.
  - intros Hopp (Nc & HNc & Hs & Hwr & Hwc & Hp).
    unfold fit. rewrite HNc. run. unfold getOrder.
    rewrite copy_loop by (rewrite length_map, length_seq; reflexivity). run.
    rewrite Hskip. cbn [negb].
    change (length (poles_ vf)) with (getOrder vf).
    rewrite (poleIdentification_not_implemented ext vf Nc (pairTags ext (poles_ vf)));
      [reflexivity | assumption | | | assumption].
    + apply getCIndex_paired; assumption.
    + split; assumption.
Qed.

(** ** The order on sorting keys *)

Lemma complexOrdering_lt a b : complexOrdering a b = true <-> key_lt a b.
Proof.
  unfold complexOrdering, key_lt, Rltb, Reqb.
  destruct (decide (real a < real b)%Qc) as [Hlt|Hlt].
  - rewrite bool_decide_eq_true_2 by assumption. tauto.
  - rewrite (bool_decide_eq_false_2 _ Hlt).
    destruct (decide (real a = real b)) as [Heq|Heq].
    + rewrite bool_decide_eq_true_2 by assumption.
      rewrite bool_decide_eq_true. tauto.
    + rewrite (bool_decide_eq_false_2 _ Heq). split; [discriminate | tauto].
Qed.

Lemma key_lt_le a b : key_lt a b -> key_le a b.
Proof.
  unfold key_lt, key_le. intros [H|[H1 H2]]; [left; assumption | right].
  split; [assumption | apply Qclt_le_weak; assumption].
Qed.

Lemma key_le_total a b : ~ key_lt a b -> key_le b a.
Proof.
  unfold key_lt, key_le. intros H.
  destruct (Qc_dec (real b) (real a)) as [[Hlt|Hgt]|Heq].
  - left. assumption.
  - exfalso. apply H. left. assumption.
  - right. split; [assumption |].
    apply Qcnot_lt_le. intros Hlt. apply H. right. split; [congruence | assumption].
Qed.

Lemma key_le_trans a b c : key_le a b -> key_le b c -> key_le a c.
Proof.
  unfold key_le. intros [H1|[H1 H1']] [H2|[H2 H2']].
  - left. eapply Qclt_trans; eassumption.
  - left. rewrite <- H2. assumption.
  - left. rewrite H1. assumption.
  - right. split; [congruence | eapply Qcle_trans; eassumption].
Qed.

Lemma key_le_antisym a b : key_le a b -> key_le b a -> a = b.
Proof.
  unfold key_le. destruct a as [ar ai], b as [br bi]. simpl.
  intros [H1|[H1 H1']] [H2|[H2 H2']].
  - exfalso. apply (Qclt_not_le _ _ H1). apply Qclt_le_weak. assumption.
  - exfalso. subst. apply (Qclt_not_eq _ _ H1). reflexivity.
  - exfalso. subst. apply (Qclt_not_eq _ _ H2). reflexivity.
  - subst. f_equal. apply Qcle_antisym; assumption.
Qed.




(** ** Sorting *)

Lemma sort_insert_perm {A : Type} (comp : A -> A -> bool) x l :
  Permutation (sort_insert comp x l) (x :: l).
Proof.
  induction l as [|y l IH]; simpl.
  - reflexivity.
  - destruct (comp x y); [reflexivity |].
    rewrite IH. apply perm_swap.
Qed.

Lemma std_sort_perm {A : Type} (comp : A -> A -> bool) l :
  Permutation (std_sort comp l) l.
Proof.
  induction l as [|x l IH]; simpl.
  - reflexivity.
  - rewrite sort_insert_perm. constructor. exact IH.
Qed.

Lemma sort_insert_sorted x l :
  StronglySorted key_le l -> StronglySorted key_le (sort_insert complexOrdering x l).
Proof.
  induction 1 as [|y l Hl IH Hy]; simpl.
  - repeat constructor.
  - destruct (complexOrdering x y) eqn:Hc.
    + apply complexOrdering_lt, key_lt_le in Hc.
      constructor; [constructor; assumption |].
      constructor; [assumption |].
      eapply Forall_impl; [exact Hy |]. intros z Hz. eapply key_le_trans; eassumption.
    + assert (Hyx : key_le y x).
      { apply key_le_total. rewrite <- complexOrdering_lt. congruence. }
      constructor; [assumption |].
      rewrite (sort_insert_perm complexOrdering x l). constructor; assumption.
Qed.

Lemma std_sort_sorted l : StronglySorted key_le (std_sort complexOrdering l).
Proof.
  induction l as [|x l IH]; simpl.
  - constructor.
  - apply sort_insert_sorted. exact IH.
Qed.

(** ** Keys of paired eigenvalues *)

Lemma keyOf_conj z : keyOf (conj z) = keyOf z.
Proof. unfold keyOf, conj. simpl. rewrite Qcabs_opp. reflexivity. Qed.

Lemma keyOf_nonneg z : nonneg_key (keyOf z).
Proof. split; apply Qcabs_nonneg. Qed.

Lemma Qcabs_0 : Qcabs 0 = 0%Qc.
Proof. apply Qcabs_pos. apply Qcle_refl. Qed.

Lemma reflect_conj ext z : reflect ext (conj z) = conj (reflect ext z).
Proof. unfold reflect, conj. simpl. destruct (greater ext (real z) 0%Qc); reflexivity. Qed.

Lemma reflect_imag ext z : imag (reflect ext z) = imag z.
Proof. unfold reflect. destruct (greater ext (real z) 0%Qc); reflexivity. Qed.

Lemma eig_paired_keys l : eig_paired l -> key_paired (map keyOf l).
Proof.
  induction 1 as [|z l Hz _ IH|z l _ IH]; simpl.
  - constructor.
  - apply key_paired_real; [| assumption]. simpl. rewrite Hz. apply Qcabs_0.
  - rewrite keyOf_conj. apply key_paired_pair. assumption.
Qed.

Lemma eig_paired_reflect ext l : eig_paired l -> eig_paired (map (reflect ext) l).
Proof.
  induction 1 as [|z l Hz _ IH|z l _ IH]; simpl.
  - constructor.
  - apply eig_paired_real; [| assumption]. rewrite reflect_imag. assumption.
  - rewrite reflect_conj. apply eig_paired_pair. assumption.
Qed.

Lemma key_paired_even ext K :
  equal ext 0%Qc 0%Qc = true -> key_paired K -> even_keys ext K.
Proof.
  intros H00. induction 1 as [|k0 l Hk0 _ IH|k0 l _ IH]; intros k Hk.
  - reflexivity.
  - rewrite count_occ_cons_neq; [apply IH; assumption |].
    intros ->. rewrite Hk0 in Hk. congruence.
  - destruct (decide (k0 = k)) as [->|Hne].
    + rewrite !count_occ_cons_eq by reflexivity. simpl. apply IH. assumption.
    + rewrite !count_occ_cons_neq by assumption. apply IH. assumption.
Qed.

Lemma even_keys_perm ext K K' : Permutation K K' -> even_keys ext K -> even_keys ext K'.
Proof.
  intros Hp H k Hk.
  rewrite <- (proj1 (Permutation_count_occ Complex_eq_dec K K') Hp k).
  apply H. assumption.
Qed.

(** ** The rebuilt poles *)

Lemma key_le_refl a : key_le a a.
Proof. right. split; [reflexivity | apply Qcle_refl]. Qed.

Lemma keyOf_first a : nonneg_key a -> keyOf (Cplx (- imag a) (real a)) = a.
Proof.
  intros [Hr Hi]. unfold keyOf. simpl. rewrite Qcabs_opp, !Qcabs_pos by assumption.
  destruct a; reflexivity.
Qed.

Lemma keyOf_second a : nonneg_key a -> keyOf (Cplx (- imag a) (- real a)) = a.
Proof.
  intros [Hr Hi]. unfold keyOf. simpl. rewrite !Qcabs_opp, !Qcabs_pos by assumption.
  destruct a; reflexivity.
Qed.

Lemma rebuild_list_canonical ext :
  equal ext 0%Qc 0%Qc = true ->
  forall n S,
    length S <= n ->
    StronglySorted key_le S -> Forall nonneg_key S -> even_keys ext S ->
    exists out,
      rebuild_list ext S = Some out /\ canonical_pairs ext out /\ map keyOf out = S.
Proof.
  intros H00. induction n as [|n IH]; intros S Hlen Hsort Hnn Heven.
  { destruct S; [| simpl in Hlen; lia]. exists []. repeat split. constructor. }
  destruct S as [|a rest].
  { exists []. repeat split. constructor. }
  apply StronglySorted_inv in Hsort as [Hsort Ha].
  apply Forall_cons in Hnn as [Hna Hnn].
  simpl. destruct (equal ext (real a) 0%Qc) eqn:Hclass.
  - assert (Heven' : even_keys ext rest).
    { intros k Hk. specialize (Heven k Hk).
      rewrite count_occ_cons_neq in Heven; [assumption |]. intros ->. congruence. }
    destruct (IH rest) as (out & Hout & Hcan & Hkeys);
      [simpl in Hlen; lia | assumption .. |].
    rewrite Hout.
    simpl. eexists. split; [reflexivity |]. split.
    + apply canonical_real; [| assumption]. exact Hclass.
    + simpl. rewrite (keyOf_first a) by assumption. congruence.
  - pose proof (Heven a Hclass) as Hcount.
    rewrite count_occ_cons_eq in Hcount by reflexivity.
    assert (Hin : In a rest).
    { apply (count_occ_In Complex_eq_dec).
      destruct (count_occ Complex_eq_dec rest a); [discriminate | lia]. }
    destruct rest as [|b rest']; [destruct Hin |].
    assert (b = a) as ->.
    { apply key_le_antisym.
      - destruct Hin as [->|Hin]; [apply key_le_refl |].
        apply StronglySorted_inv in Hsort as [_ Hb].
        exact (proj1 (List.Forall_forall _ _) Hb a Hin).
      - apply Forall_inv in Ha. assumption. }
    apply StronglySorted_inv in Hsort as [Hsort _].
    apply Forall_cons in Hnn as [_ Hnn].
    assert (Heven' : even_keys ext rest').
    { intros k Hk. specialize (Heven k Hk).
      destruct (decide (a = k)) as [->|Hne].
      - rewrite !count_occ_cons_eq in Heven by reflexivity. exact Heven.
      - rewrite !count_occ_cons_neq in Heven by assumption. exact Heven. }
    destruct (IH rest') as (out & Hout & Hcan & Hkeys);
      [simpl in Hlen; lia | assumption .. |].
    rewrite Hout.
    simpl. eexists. split; [reflexivity |]. split.
    + apply (canonical_pair ext (Cplx (- imag a) (real a))); [exact Hclass | | assumption].
      simpl. destruct Hna as [Hr _].
      apply Qcle_lt_or_eq in Hr as [Hr|Hr]; [assumption |].
      rewrite <- Hr in Hclass. congruence.
    + simpl. rewrite (keyOf_first a) by assumption.
      change (keyOf (conj {| real := - imag a; imag := real a |}))
        with (keyOf (Cplx (- imag a) (- real a))).
      rewrite (keyOf_second a) by assumption. congruence.
Qed.


(** ** The loops of [relocate] *)

Lemma stabilise_map ext (roetter : list Complex) :
  stabilise ext (length roetter) roetter = Ok (map (reflect ext) roetter).
Proof.
  unfold stabilise, for_loop.
  change roetter with (map (reflect ext) (take 0 roetter) ++ drop 0 roetter) at 2.
  apply map_range; [| lia].
  intros m v z Hz. cbv beta. rewrite (eget_Ok _ _ _ Hz). run. unfold reflect.
  destruct (greater ext (real z) 0%Qc).
  - run. apply eset_Ok. apply lookup_lt_Some in Hz. assumption.
  - rewrite list_insert_id by assumption. reflexivity.
Qed.

Lemma sortKeys_map (roetter : list Complex) :
  sortKeys (length roetter) roetter =
  Ok (std_sort complexOrdering (map keyOf roetter)).
Proof.
  unfold sortKeys, for_loop.
  match goal with
  | |- context [for_range 0 ?n ?body ?s] =>
    assert (Hfill : for_range 0 n body s = Ok (map keyOf roetter))
  end.
  { change (replicate (length roetter) C0)
      with (map keyOf (take 0 roetter) ++ drop 0 (replicate (length roetter) C0)).
    apply fill_range; [| lia | apply length_replicate].
    intros m v z Hz Hm. cbv beta. rewrite (eget_Ok _ _ _ Hz). run.
    apply vset_Ok. assumption. }
  rewrite Hfill. reflexivity.
Qed.

Lemma rebuild_range ext (aux : list Complex) (N : nat) (r : list Complex) :
  length aux = N ->
  forall fuel m cur,
    length cur = N -> m <= N -> N - m <= fuel ->
    for_idx fuel 1 m N (fun m roetter =>
      a ← vget aux m;
      if equal ext (real a) 0%Qc then
        a ← vget aux m;
        roetter ← eset roetter m (Cplx (- imag a) (real a));
        Ok (m, roetter)
      else
        a ← vget aux m;
        roetter ← eset roetter m (Cplx (- imag a) (real a));
        let m := m + 1 in
        a ← vget aux m;
        roetter ← eset roetter m (Cplx (- imag a) (- real a));
        Ok (m, roetter)) cur = Ok r ->
    exists out, rebuild_list ext (drop m aux) = Some out /\ r = take m cur ++ out.
Proof.
  intros Haux. induction fuel as [|fuel IH]; intros m cur Hcur Hm Hfuel Hrun.
  - simpl in Hrun. injection Hrun as <-. exists [].
    rewrite drop_ge by lia. split; [reflexivity |].
    rewrite firstn_all2 by lia. rewrite app_nil_r. reflexivity.
  - rewrite for_idx_S in Hrun. destruct (decide (m < N)) as [Hlt|Hge].
    2:{ injection Hrun as <-. exists [].
        rewrite drop_ge by lia. split; [reflexivity |].
        rewrite firstn_all2 by lia. rewrite app_nil_r. reflexivity. }
    destruct (lookup_lt_is_Some_2 aux m) as [a Ha]; [lia |].
    rewrite (drop_S _ _ _ Ha). rewrite (vget_Ok _ _ _ Ha) in Hrun. run in Hrun.
    cbn [rebuild_list]. destruct (equal ext (real a) 0%Qc).
    + rewrite eset_Ok in Hrun by lia. run in Hrun.
      apply IH in Hrun as (out & Hout & ->);
        [| rewrite length_insert; assumption | lia | lia].
      replace (m + 1) with (S m) in * by lia.
      rewrite Hout. simpl. eexists. split; [reflexivity |].
      rewrite (take_S_r (<[m:=_]> cur) m (Cplx (- imag a) (real a)))
        by (apply list_lookup_insert_eq; lia).
      rewrite take_insert_ge by lia. rewrite <- app_assoc. reflexivity.
    + rewrite eset_Ok in Hrun by lia. run in Hrun. cbv zeta in Hrun.
      destruct (aux !! (m + 1)) as [b|] eqn:Hb.
      2:{ rewrite vget_Err in Hrun by (apply lookup_ge_None_1; assumption).
          discriminate. }
      rewrite (vget_Ok _ _ _ Hb) in Hrun. run in Hrun.
      assert (Hm1 : m + 1 < N) by (apply lookup_lt_Some in Hb; lia).
      rewrite eset_Ok in Hrun by (rewrite length_insert; lia). run in Hrun.
      replace (S m) with (m + 1) by lia. rewrite (drop_S _ _ _ Hb).
      apply IH in Hrun as (out & Hout & ->);
        [| rewrite !length_insert; assumption | lia | lia].
      replace (S (m + 1)) with (m + 1 + 1) by lia.
      rewrite Hout. simpl. eexists. split; [reflexivity |].
      replace (m + 1 + 1) with (S (S m)) by lia.
      rewrite (take_S_r _ (S m) (Cplx (- imag b) (- real b)))
        by (replace (S m) with (m + 1) by lia;
            apply list_lookup_insert_eq; rewrite length_insert; lia).
      rewrite (take_S_r _ m (Cplx (- imag a) (real a))).
      2:{ rewrite list_lookup_insert_ne by lia.
          apply list_lookup_insert_eq; lia. }
      rewrite !take_insert_ge by lia. rewrite <- !app_assoc. reflexivity.
Qed.

(** The fuel of the rebuilding loop is never used up. *)
Lemma rebuild_fuel ext (N fuel : nat) (aux roetter : list Complex) :
  N <= fuel ->
  for_idx fuel 1 0 N (fun m roetter =>
    a ← vget aux m;
    if equal ext (real a) 0%Qc then
      a ← vget aux m;
      roetter ← eset roetter m (Cplx (- imag a) (real a));
      Ok (m, roetter)
    else
      a ← vget aux m;
      roetter ← eset roetter m (Cplx (- imag a) (real a));
      let m := m + 1 in
      a ← vget aux m;
      roetter ← eset roetter m (Cplx (- imag a) (- real a));
      Ok (m, roetter)) roetter = rebuild ext N aux roetter.
Proof.
  intros Hfuel. unfold rebuild. apply for_idx_fuel; [lia | | lia | lia].
  intros i s r H. inv_bind. destruct (equal ext _ _); inv_bind; simpl; lia.
Qed.

Lemma rebuild_Ok ext (aux roetter r : list Complex) :
  length aux = length roetter ->
  rebuild ext (length roetter) aux roetter = Ok r ->
  rebuild_list ext aux = Some r.
Proof.
  intros Hlen Hrun. unfold rebuild in Hrun.
  apply (rebuild_range ext aux (length roetter) r Hlen) in Hrun
    as (out & Hout & ->); [| reflexivity | lia | lia].
  exact Hout.
Qed.

Lemma StronglySorted_lookup {A : Type} (R : A -> A -> Prop) (l : list A) :
  StronglySorted R l ->
  forall i j a b, i < j -> l !! i = Some a -> l !! j = Some b -> R a b.
Proof.
  induction 1 as [|x l Hl IH Hx]; intros i j a b Hij Ha Hb.
  - discriminate.
  - destruct j as [|j]; [lia |]. destruct i as [|i]; simpl in Ha, Hb.
    + injection Ha as <-. rewrite Forall_lookup in Hx. eapply Hx. eassumption.
    + apply (IH i j); [lia | assumption | assumption].
Qed.

Lemma sigmaZeros_length ext N cindex LAMBD x ZER :
  sigmaZeros ext N cindex LAMBD x = Ok ZER -> length ZER = N.
Proof.
  unfold sigmaZeros. intros H. inv_bind.
  match goal with
  | Hloop : for_loop N _ (mconst N N _) = Ok ZER |- _ =>
    apply (for_loop_post (@has_dims Qc N N)) in Hloop
  end.
  - apply H.
  - apply mconst_dims.
  - intros i M M' _ Hbody HM.
    apply (for_loop_post (@has_dims Qc N N) _ _ _ _ Hbody HM).
    intros j M1 M2 _ Hset HM1. inv_bind.
    eapply mset_dims_post; eassumption.
Qed.

Lemma eigenvalues_length ext M : length (eigenvalues ext M) = length M.
Proof. unfold eigenvalues. rewrite length_map, length_seq. reflexivity. Qed.


Lemma relocate_Ok ext stable ZER r :
  relocate ext stable (length ZER) ZER = Ok r ->
  rebuild_list ext
    (std_sort complexOrdering (map keyOf (relocated_eigenvalues ext stable ZER)))
  = Some r.
Proof.
  unfold relocate, relocated_eigenvalues.
  rewrite <- (eigenvalues_length ext ZER).
  set (E := eigenvalues ext ZER). intros H.
  destruct stable.
  - rewrite stabilise_map in H. run in H.
    rewrite <- (length_map (reflect ext) E) in H.
    rewrite sortKeys_map in H. run in H.
    apply rebuild_Ok in H; [exact H |].
    rewrite (Permutation_length (std_sort_perm _ _)), length_map. reflexivity.
  - run in H. rewrite sortKeys_map in H. run in H.
    apply rebuild_Ok in H; [exact H |].
    rewrite (Permutation_length (std_sort_perm _ _)), length_map. reflexivity.
Qed.

Lemma poleIdentification_Ok ext vf Ns N Nc r :
  poleIdentification ext vf Ns N Nc = Ok r ->
  exists ZER, length ZER = N /\ relocate ext (isStable (options_ vf)) N ZER = Ok r.
Proof.
  unfold poleIdentification. intros H. inv_bind.
  match goal with
  | Hif : (if ?b then _ else _) = Ok r |- _ => destruct b; [discriminate |]
  end.
  inv_bind.
  match goal with
  | Hz : sigmaZeros _ _ _ _ _ = Ok ?Z |- _ =>
    exists Z; split; [eapply sigmaZeros_length; eassumption | assumption]
  end.
Qed.

Lemma fit_poles_rebuilt ext vf vf' :
  isSkipPoleIdentification (options_ vf) = false ->
  fit ext vf = Ok vf' ->
  exists ZER,
    rebuild_list ext
      (std_sort complexOrdering
         (map keyOf (relocated_eigenvalues ext (isStable (options_ vf)) ZER)))
    = Some (poles_ vf').
Proof.
  intros Hskip Hfit.
  destruct (fit_relocated ext vf vf' Hfit Hskip) as (Nc & r & _ & Hr & ->).
  apply poleIdentification_Ok in Hr as (ZER & Hlen & Hr).
  exists ZER. apply relocate_Ok. rewrite Hlen. exact Hr.
Qed.

Lemma sorted_keys_nonneg l : Forall nonneg_key (std_sort complexOrdering (map keyOf l)).
Proof.
  rewrite (std_sort_perm complexOrdering (map keyOf l)).
  apply List.Forall_forall. intros k Hk. apply in_map_iff in Hk as (z & <- & _).
  apply keyOf_nonneg.
Qed.


Lemma relocated_even ext stable ZER :
  equal ext 0%Qc 0%Qc = true ->
  eig_paired (eigenvalues ext ZER) ->
  even_keys ext
    (std_sort complexOrdering (map keyOf (relocated_eigenvalues ext stable ZER))).
Proof.
  intros H00 Hp.
  eapply even_keys_perm; [symmetry; apply std_sort_perm |].
  apply key_paired_even; [assumption |]. apply eig_paired_keys.
  unfold relocated_eigenvalues. destruct stable; [| assumption].
  apply eig_paired_reflect. assumption.
Qed.

Lemma canonical_pairs_paired ext l : canonical_pairs ext l -> conj_paired ext l.
Proof. induction 1; constructor; assumption. Qed.

(** C6.  The poles that a [fit] with pole identification leaves are in
    canonical order: sorted by the key [(|imag|, |real|)], so ascending in
    [|imag|] with the real poles first, and every complex pole is the
    positive-imaginary member of a pair and immediately followed by its
    conjugate.  The solver is taken to return the eigenvalues of a real
    matrix as Eigen does, a complex one next to its conjugate, and the
    tolerance test to accept that zero equals zero. *)
Theorem fit_canonical_order (ext : Externals) (vf vf' : VectorFitting) :
  equal ext 0%Qc 0%Qc = true ->
  (forall M : Mat Qc, eig_paired (eigenvalues ext M)) ->
  isSkipPoleIdentification (options_ vf) = false ->
  fit ext vf = Ok vf' ->
  StronglySorted key_le (map keyOf (getPoles vf')) /\
  (forall i j p q, i < j ->
     getPoles vf' !! i = Some p -> getPoles vf' !! j = Some q ->
     (Qcabs (imag p) <= Qcabs (imag q))%Qc /\ (imag q = 0%Qc -> imag p = 0%Qc)) /\
  canonical_pairs ext (getPoles vf').
Proof.
  intros H00 Heig Hskip Hfit. unfold getPoles.
  destruct (fit_poles_rebuilt ext vf vf' Hskip Hfit) as (ZER & Hr).
  destruct (rebuild_list_canonical ext H00 _ _ (Nat.le_refl _)
              (std_sort_sorted _) (sorted_keys_nonneg _)
              (relocated_even ext (isStable (options_ vf)) ZER H00 (Heig ZER)))
    as (out & Hout & Hcan & Hkeys).
  rewrite Hr in Hout. injection Hout as <-.
  assert (Hsorted : StronglySorted key_le (map keyOf (poles_ vf'))).
  { rewrite Hkeys. apply std_sort_sorted. }
  split; [exact Hsorted |]. split; [| exact Hcan].
  intros i j p q Hij Hp Hq.
  assert (Hle : key_le (keyOf p) (keyOf q)).
  { apply (StronglySorted_lookup _ _ Hsorted i j); [assumption | |];
      rewrite list_lookup_fmap; [rewrite Hp | rewrite Hq]; reflexivity. }
  assert (Habs : (Qcabs (imag p) <= Qcabs (imag q))%Qc).
  { destruct Hle as [Hlt|[Heq _]]; simpl in *.
    - apply Qclt_le_weak. assumption.
    - rewrite Heq. apply Qcle_refl. }
  split; [exact Habs |].
  intros Hq0. rewrite Hq0, Qcabs_0 in Habs.
  apply Qcabs_null. apply Qcle_antisym; [assumption | apply Qcabs_nonneg].
Qed.

(** ** The concrete instance *)

Lemma tol_equal_opp (x : Qc) : tol_equal (- x)%Qc 0%Qc = tol_equal x 0%Qc.
Proof.
  unfold tol_equal. f_equal.
  replace (- x - 0)%Qc with (- (x - 0))%Qc by ring.
  rewrite Qcabs_opp. reflexivity.
Qed.

Lemma demo_poles_paired : conj_paired demo_externals demo_poles.
Proof.
  unfold demo_poles.
  apply (conj_paired_pair demo_externals (Cplx (-1) 2)); [reflexivity |].
  apply conj_paired_real; [reflexivity |]. constructor.
Qed.

Lemma demo_eigenvalues_range (M : Mat Qc) :
  forall n i, i + n = length M -> Nat.even i = true ->
    eig_paired (map (demo_eigenvalue M) (seq i n)).
Proof.
  induction n as [n IH] using lt_wf_ind. intros i Hin Hi.
  destruct n as [|[|n]].
  - constructor.
  - simpl. unfold demo_eigenvalue at 1. rewrite Hi.
    rewrite decide_False by lia. apply eig_paired_real; [reflexivity | constructor].
  - simpl. unfold demo_eigenvalue at 1 2. rewrite Hi.
    rewrite decide_True by lia.
    assert (Hodd : Nat.even (S i) = false).
    { rewrite Nat.even_succ, <- Nat.negb_even, Hi. reflexivity. }
    rewrite Hodd. replace (i + 1) with (S i) by lia.
    apply eig_paired_pair. apply IH; [lia | lia |].
    rewrite Nat.even_succ, <- Nat.negb_even, Hodd. reflexivity.
Qed.

Lemma demo_eigenvalues_paired (M : Mat Qc) : eig_paired (eigenvalues demo_externals M).
Proof. apply demo_eigenvalues_range; [lia | reflexivity]. Qed.

Example demo_constructed :
  VectorFitting_poles demo_externals demo_samples demo_poles demo_options [] =
  Ok demo_vf.
Proof. vm_compute. reflexivity. Qed.

Lemma demo_fit : fit demo_externals demo_vf = Ok demo_fitted.
Proof. vm_compute. reflexivity. Qed.

(** The fitted poles: the real eigenvalue first, then the reflected pair. *)
Example demo_fitted_poles :
  map (fun z => (this (real z), this (imag z))) (getPoles demo_fitted) =
  [((-3)%Q, 0%Q); ((-1)%Q, 2%Q); ((-1)%Q, (-2)%Q)].
Proof. vm_compute. reflexivity. Qed.

(** C1, exercised: an order of two is refused, an order of three runs out
    of the pole vector. *)
Lemma order_constructor_witness :
  VectorFitting_order demo_externals demo_samples 2 demo_options [] =
    Err (RuntimeError "Default starting poles are complex, order must be even") /\
  VectorFitting_order demo_externals demo_samples 3 demo_options [] = Err OutOfBounds.
Proof.
  destruct (order_constructor_outcome demo_externals demo_samples 2 demo_options [])
    as [Heven _]; [discriminate |].
  destruct (order_constructor_outcome demo_externals demo_samples 3 demo_options [])
    as [_ Hodd]; [discriminate |].
  split; [apply Heven; reflexivity | apply Hodd; discriminate].
Defined.

(** C2, exercised: the three input poles do not reach the residue stage. *)
Lemma fit_residue_only_witness :
  fit demo_externals demo_residue_only = Err AssertionFailed.
Proof.
  apply fit_residue_only_fails; [reflexivity | reflexivity |].
  vm_compute. discriminate.
Defined.





(** C6, exercised. *)
Lemma fit_canonical_order_witness :
  StronglySorted key_le (map keyOf (getPoles demo_fitted)) /\
  canonical_pairs demo_externals (getPoles demo_fitted).
Proof.
  destruct (fit_canonical_order demo_externals demo_vf demo_fitted)
    as (Hsorted & _ & Hcan).
  - vm_compute. reflexivity.
  - apply demo_eigenvalues_paired.
  - vm_compute. reflexivity.
  - vm_compute. reflexivity.
  - split; assumption.
Defined.

Lemma demo_no_relax_well_formed : well_formed demo_externals demo_no_relax.
Proof.
  exists 1. split; [reflexivity |].
  split; [repeat constructor |].
  split; [reflexivity |].
  split; [repeat constructor |].
  exact demo_poles_paired.
Qed.

(** C7, exercised. *)
Lemma fit_no_relax_witness :
  fit demo_externals demo_no_relax =
  Err (RuntimeError "Option to do not relax is not implemented").
Proof.
  apply (fit_no_relax_not_implemented demo_externals demo_no_relax).
  - reflexivity.
  - reflexivity.
  - exact tol_equal_opp.
  - exact demo_no_relax_well_formed.
Defined.

(** C8, exercised: a pair followed by a real pole. *)
Lemma getCIndex_classifies_witness :
  getCIndex demo_externals demo_poles = Ok [1%Z; 2%Z; 0%Z] /\
  length (pairTags demo_externals demo_poles) = length demo_poles.
Proof.
  exact (getCIndex_classifies demo_externals demo_poles tol_equal_opp demo_poles_paired).
Defined.


(** C10, exercised: pole identification alone. *)
Lemma fit_skip_residue_witness :
  exists Nc, getResponseSize demo_poles_only = Ok Nc /\
    B_ (fitted demo_poles_only) = replicate (getOrder demo_poles_only) 1%Z /\
    C_ (fitted demo_poles_only) = mconst Nc (getOrder demo_poles_only) C0 /\
    D_ (fitted demo_poles_only) = replicate Nc C0 /\
    E_ (fitted demo_poles_only) = replicate Nc C0.
Proof.
  apply (fit_skip_residue_resets demo_externals); vm_compute; reflexivity.
Defined.
